(** * Mischief: capture controller, exchange assembly and WACZ export

    A shallow embedding of
    - [src/exchanges/MischiefExchange.js] (the exchange class and its
      key-filtering constructor),
    - [src/Mischief.js] (the capture state machine, the per-chunk network
      interception and the size budget),
    - [src/exporters/mischiefToWacz.js] (the WACZ exporter),
    followed by the properties of the specification that concern them. *)

From Stdlib Require Import ZArith Lia Bool Ascii.
From Stdlib.Strings Require Import Byte.
From stdpp Require Import base option list strings gmap countable.

Local Open Scope string_scope.
Local Open Scope list_scope.
Local Open Scope Z_scope.

#[local] Set Warnings "-clear-no-such-hyp".

(** ** JavaScript values *)

(** A Node [Buffer]. *)
Abbreviation bytes := (list byte).

(** The values that travel through the constructor's [props] argument and
    the parsed request / response of an exchange. *)
#[warnings="-register-all"]
Inductive jsval : Type :=
| JUndefined
| JNull
| JBool (b : bool)
| JNum (n : Z)
| JStr (s : string)
| JDate (ms : Z)
| JBuffer (b : bytes)
| JArr (items : list jsval)
| JObj (props : list (string * jsval)).

(** [typeof v === "object"] (which includes [null]): the values for which
    the [__proto__] setter of [Object.prototype] replaces the prototype. *)
Definition is_object_or_null (v : jsval) : bool :=
  match v with
  | JNull | JDate _ | JBuffer _ | JArr _ | JObj _ => true
  | JUndefined | JBool _ | JNum _ | JStr _ => false
  end.

(** ** [src/exchanges/MischiefExchange.js] *)

Module ExchangeObject.

(** An instance is modelled by its own properties.  Its prototype chain is
    fixed: [MischiefExchange.prototype], then [Object.prototype]. *)
Abbreviation obj := (gmap string jsval).

(** The class fields, installed before the constructor body runs:
    [date = new Date()], [id], [_request], [_response]. *)
Definition declared_fields : list string :=
  ["date"; "id"; "_request"; "_response"].

Definition fresh (now : Z) : obj :=
  <["_response" := JUndefined]>
    (<["_request" := JUndefined]>
       (<["id" := JUndefined]> (<["date" := JDate now]> ∅))).

(** Properties of [MischiefExchange.prototype]: the two accessor pairs and
    [constructor]. *)
Definition accessors : list string := ["request"; "response"].
Definition class_prototype_keys : list string := "constructor" :: accessors.

(** Properties of [Object.prototype]. *)
Definition Object_prototype_keys : list string :=
  ["constructor"; "__defineGetter__"; "__defineSetter__"; "hasOwnProperty";
   "__lookupGetter__"; "__lookupSetter__"; "isPrototypeOf";
   "propertyIsEnumerable"; "toString"; "valueOf"; "__proto__";
   "toLocaleString"].

Definition inherited_keys : list string :=
  class_prototype_keys ++ Object_prototype_keys.

(** [key in this]: own properties first, then the prototype chain. *)
Definition has_property (o : obj) (key : string) : bool :=
  bool_decide (is_Some (o !! key)) || bool_decide (key ∈ inherited_keys).

(** [this[key] = value] for a key that is [in this].  [request] and
    [response] are setters that store into [_request] and [_response];
    [__proto__] is the setter of [Object.prototype], which ignores values
    that are neither objects nor [null]; every other key is a writable data
    property, own or inherited, so the assignment defines an own property.
    [None]: the prototype was replaced, which this model does not follow. *)
Definition put (o : obj) (key : string) (value : jsval) : option obj :=
  if bool_decide (key = "request") then Some (<["_request" := value]> o)
  else if bool_decide (key = "response") then Some (<["_response" := value]> o)
  else if bool_decide (key = "__proto__") then
    if is_object_or_null value then None else Some o
  else Some (<[key := value]> o).

(** [for (const [key, value] of Object.entries(props))
       if (key in this) this[key] = value] *)
Fixpoint assign_all (o : obj) (entries : list (string * jsval)) : option obj :=
  match entries with
  | [] => Some o
  | (key, value) :: rest =>
      if has_property o key
      then match put o key value with
           | Some o' => assign_all o' rest
           | None => None
           end
      else assign_all o rest
  end.

(** [new MischiefExchange(props)], at clock reading [now]. *)
Definition new_MischiefExchange (now : Z) (props : list (string * jsval)) : option obj :=
  assign_all (fresh now) props.

(** The value last given in [entries] to one of the keys [targets]. *)
Fixpoint last_assigned (targets : list string) (entries : list (string * jsval))
  : option jsval :=
  match entries with
  | [] => None
  | (key, value) :: rest =>
      match last_assigned targets rest with
      | Some v => Some v
      | None => if bool_decide (key ∈ targets) then Some value else None
      end
  end.

(** The props of the screenshot step of [Mischief.capture]. *)
Definition screenshot_response (body : bytes) : jsval :=
  JObj [("headers", JArr [JStr "Content-Type"; JStr "image/png"]);
        ("versionMajor", JNum 1);
        ("versionMinor", JNum 1);
        ("statusCode", JNum 200);
        ("statusMessage", JStr "OK");
        ("body", JBuffer body)].

Definition screenshot_props (body : bytes) : list (string * jsval) :=
  [("url", JStr "file:///screenshot.png");
   ("response", screenshot_response body)].

End ExchangeObject.

(** ** [src/Mischief.js]: data *)

(** [Mischief.states]. *)
Inductive State : Type :=
| INIT | SETUP | CAPTURE | TEARDOWN | COMPLETE | PARTIAL | ERROR.

Global Instance State_eq_dec : EqDecision State.
Proof. solve_decision. Defined.

Definition state_code (s : State) : Z :=
  match s with
  | INIT => 0 | SETUP => 1 | CAPTURE => 2 | TEARDOWN => 3
  | COMPLETE => 4 | PARTIAL => 5 | ERROR => 6
  end.

(** The two values of the [type] argument of [networkInterception]. *)
Inductive Direction : Type := request | response.

Global Instance Direction_eq_dec : EqDecision Direction.
Proof. solve_decision. Defined.

Definition direction_name (d : Direction) : string :=
  match d with request => "request" | response => "response" end.

(** An exchange as the controller and the exporter use it: the declared
    fields of the class, typed as their annotations say, and the two
    buffers [requestRaw] / [responseRaw] that [networkInterception] attaches.
    [None] is [undefined]. *)
Record MischiefExchange : Type := mkExchange {
  date : Z;
  id : option string;
  _request : option jsval;
  _response : option jsval;
  requestRaw : option bytes;
  responseRaw : option bytes
}.

(** [ex[`${type}Raw`]] *)
Definition raw (type : Direction) (ex : MischiefExchange) : option bytes :=
  match type with
  | request => requestRaw ex
  | response => responseRaw ex
  end.

Definition set_raw (type : Direction) (b : bytes) (ex : MischiefExchange)
  : MischiefExchange :=
  match type with
  | request => mkExchange (date ex) (id ex) (_request ex) (_response ex)
                          (Some b) (responseRaw ex)
  | response => mkExchange (date ex) (id ex) (_request ex) (_response ex)
                           (requestRaw ex) (Some b)
  end.

(** The bytes held in a direction; an unset buffer holds none. *)
Definition raw_bytes (type : Direction) (ex : MischiefExchange) : bytes :=
  default [] (raw type ex).

(** The typed view of an instance built by the constructor. *)
Definition as_exchange (o : ExchangeObject.obj) : option MischiefExchange :=
  match o !! "date", o !! "id", o !! "_request", o !! "_response" with
  | Some (JDate ms), Some i, Some rq, Some rs =>
      let opt v := match v with JUndefined => None | _ => Some v end in
      match i with
      | JUndefined => Some (mkExchange ms None (opt rq) (opt rs) None None)
      | JStr s => Some (mkExchange ms (Some s) (opt rq) (opt rs) None None)
      | _ => None
      end
  | _, _, _, _ => None
  end.

(** [new MischiefExchange({id: id})] *)
Definition new_exchange (now : Z) (sid : string) : MischiefExchange :=
  mkExchange now (Some sid) None None None None.

(** [new MischiefExchange({url: "file:///screenshot.png", response: {...}})] *)
Definition new_screenshot_exchange (now : Z) (body : bytes) : MischiefExchange :=
  mkExchange now None None (Some (ExchangeObject.screenshot_response body))
             None None.

(** Modelled from the spec: [MischiefGeneratedExchange] is not part of the
    sources at hand.  A generated exchange is an exchange synthesized by the
    controller against a synthetic URL; it carries an [isEntryPoint] flag
    ([None] when the property is missing, [Some b] for a boolean). *)
Record MischiefGeneratedExchange : Type := mkGenerated {
  gen_exchange : MischiefExchange;
  gen_url : string;
  isEntryPoint : option bool
}.

(** The options the controller and the exporter read. *)
Record MischiefOptions : Type := mkOptions {
  maxSize : Z;
  grabSecondaryResources : bool;
  autoPlayMedia : bool;
  runSiteSpecificBehaviors : bool;
  autoScroll : bool;
  screenshot : bool;
  provenanceSummary : bool
}.

(** The messages handed to [addToLogs], one constructor per template. *)
Inductive LogMessage : Type :=
| LogStarting (url : string)
  (* `Starting capture of ${this.url} with options: ...` *)
| LogStep (i n : nat) (name : string)
  (* `STEP [${i+1}/${steps.length}]: ${step.name}` *)
| LogStepFailed (i n : nat) (name : string)
  (* `STEP [...]: ${step.name} - failed` *)
| LogStepEnded (i n : nat) (name : string)
  (* `STEP [...]: ${step.name} - ended due to max size reached` *)
| LogMaxSize
  (* "Max size reached. Ending further capture." *)
| LogClosing.
  (* "Closing browser and proxy server." *)

Record MischiefLog : Type := mkLog {
  message : LogMessage;
  isWarning : bool;
  trace : string
}.

(** The private [#browser] handle: unset until [chromium.launch] resolves;
    afterwards it remembers how often [close()] was called on it. *)
Inductive Browser : Type :=
| NoBrowser
| Launched (closeCalls : nat).

(** Modelled from the spec: the free-form provenance summary of a capture. *)
Abbreviation ProvenanceInfo := (list (string * string)).

Record Mischief : Type := mkMischief {
  state : State;
  url : string;
  options : MischiefOptions;
  exchanges : list MischiefExchange;
  generatedExchanges : list MischiefGeneratedExchange;
  logs : list MischiefLog;
  totalSize : Z;
  provenanceInfo : option ProvenanceInfo;
  browser : Browser
}.

Definition with_state (s : State) (m : Mischief) : Mischief :=
  mkMischief s (url m) (options m) (exchanges m) (generatedExchanges m)
             (logs m) (totalSize m) (provenanceInfo m) (browser m).

Definition with_exchanges (exs : list MischiefExchange) (m : Mischief) : Mischief :=
  mkMischief (state m) (url m) (options m) exs (generatedExchanges m)
             (logs m) (totalSize m) (provenanceInfo m) (browser m).

Definition with_logs (l : list MischiefLog) (m : Mischief) : Mischief :=
  mkMischief (state m) (url m) (options m) (exchanges m) (generatedExchanges m)
             l (totalSize m) (provenanceInfo m) (browser m).

Definition with_totalSize (n : Z) (m : Mischief) : Mischief :=
  mkMischief (state m) (url m) (options m) (exchanges m) (generatedExchanges m)
             (logs m) n (provenanceInfo m) (browser m).

Definition with_browser (b : Browser) (m : Mischief) : Mischief :=
  mkMischief (state m) (url m) (options m) (exchanges m) (generatedExchanges m)
             (logs m) (totalSize m) (provenanceInfo m) b.

(** [new Mischief(url, options)], url and options already filtered. *)
Definition new_Mischief (u : string) (o : MischiefOptions) : Mischief :=
  mkMischief INIT u o [] [] [] 0 None NoBrowser.

(** What a call either returns or throws. *)
Inductive Completion (A : Type) : Type :=
| Returns (a : A)
| Throws (err : string).
Arguments Returns {A} a.
Arguments Throws {A} err.

(** ** [src/Mischief.js]: operations *)

(** [addToLogs(message, isWarning = false, trace = "")] *)
Definition addToLogs (msg : LogMessage) (warning : bool) (tr : string)
    (m : Mischief) : Mischief :=
  with_logs (logs m ++ [mkLog msg warning tr]) m.

(** [teardown()].  The guard, the state change, the log entry and the call of
    [this.#browser.close()] all happen before the function first suspends,
    so a caller that does not await it has seen them when the call returns.
    Reading [close] off an unset handle throws a [TypeError]; [close()] itself
    is taken to fulfil. *)
Definition teardown (m : Mischief) : Mischief * Completion unit :=
  if decide (state m = TEARDOWN) then (m, Returns tt)
  else
    let m1 := addToLogs LogClosing false "" (with_state TEARDOWN m) in
    match browser m1 with
    | NoBrowser => (m1, Throws "TypeError")
    | Launched n => (with_browser (Launched (S n)) m1, Returns tt)
    end.

(** [Array.prototype.findLast], returning the position of the element. *)
Fixpoint findLastIndex {A : Type} (p : A → bool) (l : list A) : option nat :=
  match l with
  | [] => None
  | x :: l' =>
      match findLastIndex p l' with
      | Some i => Some (S i)
      | None => if p x then Some 0%nat else None
      end
  end.

(** The predicate of [getOrInitExchange]:
    [ex.id == id && (type == "response" || !ex.responseRaw)].
    A [Buffer] is an object, hence truthy whatever its length. *)
Definition continues (sid : string) (type : Direction) (ex : MischiefExchange) : bool :=
  bool_decide (id ex = Some sid)
  && (bool_decide (type = response) || negb (bool_decide (is_Some (responseRaw ex)))).

(** [getOrInitExchange(id, type)]: the position of the exchange it returns,
    and the store, which has grown by one exchange when none was found.
    [now] is the clock reading [new Date()] would give. *)
Definition getOrInitExchange (sid : string) (type : Direction) (now : Z)
    (exs : list MischiefExchange) : nat * list MischiefExchange :=
  match findLastIndex (continues sid type) exs with
  | Some i => (i, exs)
  | None => (length exs, exs ++ [new_exchange now sid])
  end.

(** [ex[prop] = ex[prop] ? Buffer.concat([ex[prop], data], ...) : data] *)
Definition append_raw (type : Direction) (data : bytes) (ex : MischiefExchange)
  : MischiefExchange :=
  match raw type ex with
  | Some old => set_raw type (old ++ data) ex
  | None => set_raw type data ex
  end.

(** One delivery of the proxy: [injectData] / [injectResponse] call
    [networkInterception(type, data, session)]; [chunk_now] is the clock
    reading at that moment. *)
Record Chunk : Type := mkChunk {
  chunk_type : Direction;
  chunk_data : bytes;
  chunk_session : string;
  chunk_now : Z
}.

Definition byteLength (data : bytes) : Z := Z.of_nat (length data).

(** [networkInterception(type, data, session)]: the controller afterwards and
    the value returned to the proxy. *)
Definition networkInterception (c : Chunk) (m : Mischief) : Mischief * bytes :=
  let '(i, exs) :=
    getOrInitExchange (chunk_session c) (chunk_type c) (chunk_now c) (exchanges m) in
  let exs' := alter (append_raw (chunk_type c) (chunk_data c)) i exs in
  let m1 := with_totalSize (totalSize m + byteLength (chunk_data c))
                           (with_exchanges exs' m) in
  if (maxSize (options m1) <=? totalSize m1) && bool_decide (state m1 = CAPTURE)
  then (fst (teardown (addToLogs LogMaxSize false "" m1)), chunk_data c)
  else (m1, chunk_data c).

(** The controller after one delivery, and after a sequence of them. *)
Definition ingest (c : Chunk) (m : Mischief) : Mischief :=
  fst (networkInterception c m).

Definition ingest_all (cs : list Chunk) (m : Mischief) : Mischief :=
  foldl (λ m c, ingest c m) m cs.

(** The steps of the pipeline built at the top of [capture()]. *)
Inductive Step : Type :=
| InitialLoad | BrowserScripts | AutoScrollStep | ScreenshotStep | NetworkIdle.

Definition step_name (s : Step) : string :=
  match s with
  | InitialLoad => "initial load"
  | BrowserScripts => "browser scripts"
  | AutoScrollStep => "auto-scroll"
  | ScreenshotStep => "screenshot"
  | NetworkIdle => "network idle"
  end.

(** The steps pushed after "initial load". *)
Definition later_steps (o : MischiefOptions) : list Step :=
  (if grabSecondaryResources o || autoPlayMedia o || runSiteSpecificBehaviors o
   then [BrowserScripts] else [])
  ++ (if autoScroll o then [AutoScrollStep] else [])
  ++ (if screenshot o then [ScreenshotStep] else [])
  ++ [NetworkIdle].

Definition build_steps (o : MischiefOptions) : list Step :=
  InitialLoad :: later_steps o.

(** What the outside world does while one step is awaited: the chunks the
    proxy delivers meanwhile, in order, and how the step's promise settles.
    [shot] and [shot_now] are the image [page.screenshot] resolves with and
    the clock reading when the exchange for it is constructed. *)
Record StepRun : Type := mkStepRun {
  arrivals : list Chunk;
  rejection : option string;
  shot : bytes;
  shot_now : Z
}.

(** [await step.fn(page)]: the deliveries, then, if the step fulfils, its own
    effect on the controller (only the screenshot step has one). *)
Definition run_fn (s : Step) (r : StepRun) (m : Mischief) : Mischief :=
  let m1 := ingest_all (arrivals r) m in
  match rejection r, s with
  | None, ScreenshotStep =>
      with_exchanges (exchanges m1 ++ [new_screenshot_exchange (shot_now r) (shot r)]) m1
  | _, _ => m1
  end.

(** The body of the [do ... while] loop: the [try] block and its [catch]. *)
Definition run_step (n i : nat) (s : Step) (r : StepRun) (m : Mischief) : Mischief :=
  let m1 := addToLogs (LogStep (S i) n (step_name s)) false "" m in
  let m2 := run_fn s r m1 in
  match rejection r with
  | None => m2
  | Some err =>
      if decide (state m2 = CAPTURE)
      then addToLogs (LogStepFailed (S i) n (step_name s)) true err m2
      else addToLogs (LogStepEnded (S i) n (step_name s)) true "" m2
  end.

(** [do { step = steps[i]; ... }
     while (this.state == CAPTURE && i++ < steps.length - 1)],
    entered at [steps[i] = cur] with [rest] the steps after it;
    [n = steps.length]. *)
Fixpoint step_loop (n i : nat) (cur : Step) (rest : list Step)
    (runs : nat → StepRun) (m : Mischief) : Mischief :=
  let m1 := run_step n i cur (runs i) m in
  match rest with
  | [] => m1
  | next :: rest' =>
      if decide (state m1 = CAPTURE)
      then step_loop n (S i) next rest' runs m1
      else m1
  end.

(** What the outside world does during one run of [capture()]. *)
Record CaptureEnv : Type := mkEnv {
  setup_arrivals : list Chunk;     (* delivered while [setup()] is awaited *)
  setup_failure : option string;   (* launch / context / page acquisition *)
  launched_before_failure : bool;  (* did [chromium.launch] itself resolve *)
  step_runs : nat → StepRun;
  close_arrivals : list Chunk      (* delivered while [close()] is awaited *)
}.

(** [setup()] *)
Definition setup (env : CaptureEnv) (m : Mischief) : Mischief * Completion unit :=
  let m1 := ingest_all (setup_arrivals env) (with_state SETUP m) in
  match setup_failure env with
  | Some err =>
      (if launched_before_failure env then with_browser (Launched 0) m1 else m1,
       Throws err)
  | None => (with_browser (Launched 0) m1, Returns tt)
  end.

(** [await this.teardown(page)] at the end of [capture()]: when the call goes
    as far as [close()], deliveries may still come in while it is awaited. *)
Definition teardown_awaited (env : CaptureEnv) (m : Mischief)
  : Mischief * Completion unit :=
  if decide (state m = TEARDOWN) then (m, Returns tt)
  else
    match teardown m with
    | (m1, Returns _) => (ingest_all (close_arrivals env) m1, Returns tt)
    | (m1, Throws err) => (m1, Throws err)
    end.

(** [capture()] *)
Definition capture (env : CaptureEnv) (m : Mischief) : Mischief * Completion State :=
  let steps := build_steps (options m) in
  match setup env m with
  | (m1, Throws err) => (m1, Throws err)
  | (m1, Returns _) =>
      let m2 := addToLogs (LogStarting (url m1)) false "" m1 in
      let m3 := with_state CAPTURE m2 in
      let m4 := step_loop (length steps) 0 InitialLoad (later_steps (options m))
                          (step_runs env) m3 in
      match teardown_awaited env m4 with
      | (m5, Throws err) => (m5, Throws err)
      | (m5, Returns _) => (with_state COMPLETE m5, Returns COMPLETE)
      end
  end.

(** ** [src/exporters/mischiefToWacz.js] *)

(** [Date.prototype.toISOString], for a date given in milliseconds since
    the epoch: [YYYY-MM-DDTHH:mm:ss.sssZ], the year with a sign and six
    digits outside 0..9999. *)
Definition digit (n : Z) : ascii := ascii_of_nat (48 + Z.to_nat n).

Fixpoint pad (width : nat) (n : Z) : string :=
  match width with
  | O => ""
  | S w => pad w (n / 10) +:+ String (digit (n mod 10)) ""
  end.

Definition civil_from_days (days : Z) : Z * Z * Z :=
  let z := days + 719468 in
  let era := z / 146097 in
  let doe := z - era * 146097 in
  let yoe := (doe - doe / 1460 + doe / 36524 - doe / 146096) / 365 in
  let doy := doe - (365 * yoe + yoe / 4 - yoe / 100) in
  let mp := (5 * doy + 2) / 153 in
  let d := doy - (153 * mp + 2) / 5 + 1 in
  let m := if mp <? 10 then mp + 3 else mp - 9 in
  let y := yoe + era * 400 + (if m <=? 2 then 1 else 0) in
  (y, m, d).

Definition toISOString (ms : Z) : string :=
  let '(y, mo, d) := civil_from_days (ms / 86400000) in
  let t := ms mod 86400000 in
  let year :=
    if (0 <=? y) && (y <=? 9999) then pad 4 y
    else (if y <? 0 then "-" else "+") +:+ pad 6 (Z.abs y) in
  year +:+ "-" +:+ pad 2 mo +:+ "-" +:+ pad 2 d
  +:+ "T" +:+ pad 2 (t / 3600000) +:+ ":" +:+ pad 2 (t / 60000 mod 60)
  +:+ ":" +:+ pad 2 (t / 1000 mod 60) +:+ "." +:+ pad 3 (t mod 1000) +:+ "Z".

(** [`raw/${type}_${exchange.date.toISOString()}_${exchange.id}`] *)
Definition raw_key (d : Z) (i : option string) : string :=
  toISOString d +:+ "_" +:+ default "undefined" i.

Definition raw_path_at (type : Direction) (d : Z) (i : option string) : string :=
  "raw/" +:+ direction_name type +:+ "_" +:+ raw_key d i.

Definition raw_path (type : Direction) (ex : MischiefExchange) : string :=
  raw_path_at type (date ex) (id ex).

(** An element of [entryPoints]: an intercepted exchange of the store or a
    generated exchange. *)
Inductive AnyExchange : Type :=
| Intercepted (ex : MischiefExchange)
| Generated (g : MischiefGeneratedExchange).

(** The [WACZ] object of [utils/WACZ.js] as the exporter fills it: the
    [files] object, the [pages] array and [datapackageExtras]. *)
Record WACZ (PageLine : Type) : Type := mkWACZ {
  files : gmap string bytes;
  pages : list PageLine;
  datapackageExtras : option ProvenanceInfo
}.
Arguments mkWACZ {PageLine} _ _ _.
Arguments files {PageLine} _.
Arguments pages {PageLine} _.
Arguments datapackageExtras {PageLine} _.

(** What the exporter calls but this repository part does not contain:
    [capture.toWarc()], [mischiefExchangeToPageLine] and [wacz.finalize()]. *)
Record WaczLib : Type := mkWaczLib {
  PageLine : Type;
  toWarc : Mischief → Completion bytes;
  mischiefExchangeToPageLine : AnyExchange → PageLine;
  finalize : WACZ PageLine → Completion bytes
}.

(** How a call of [mischiefToWacz] ends: with the archive, with the error
    of its own state check, or with an exception of one of its callees. *)
Inductive Export (A : Type) : Type :=
| Exported (a : A)
| InvalidCapture   (* "`capture` must be a partial or complete Mischief object." *)
| CalleeThrew (err : string).
Arguments Exported {A} a.
Arguments InvalidCapture {A}.
Arguments CalleeThrew {A} err.

(** The first argument of [mischiefToWacz]: a [Mischief] instance or
    anything else. *)
Inductive CaptureArg : Type :=
| IsMischief (c : Mischief)
| NotMischief (v : jsval).

Definition validStates : list State := [PARTIAL; COMPLETE].

(** The inner [forEach] over [['request', 'response']]. *)
Definition add_raw (fs : gmap string bytes) (ex : MischiefExchange)
  : gmap string bytes :=
  foldl (λ fs type,
           match raw type ex with
           | Some data => <[raw_path type ex := data]> fs
           | None => fs
           end)
        fs [request; response].

(** [capture.exchanges.forEach(...)] *)
Definition add_all_raw (fs : gmap string bytes) (exs : list MischiefExchange)
  : gmap string bytes :=
  foldl add_raw fs exs.

Definition entryPoints (c : Mischief) : list AnyExchange :=
  (match exchanges c with
   | first :: _ => [Intercepted first]
   | [] => []
   end)
  ++ (Generated <$> filter (λ g, isEntryPoint g = Some true) (generatedExchanges c)).

(** The [WACZ] object at the moment [finalize()] is called on it, given the
    bytes [toWarc] resolved with. *)
Definition fill_wacz (lib : WaczLib) (c : Mischief) (includeRaw : bool)
    (warc : bytes) : WACZ (PageLine lib) :=
  let fs := <["archive/data.warc" := warc]> ∅ in
  mkWACZ
    (if includeRaw then add_all_raw fs (exchanges c) else fs)
    (mischiefExchangeToPageLine lib <$> entryPoints c)
    (if provenanceSummary (options c) then provenanceInfo c else None).

(** The part of [mischiefToWacz] before [wacz.finalize()]. *)
Definition mischiefToWacz_container (lib : WaczLib) (capture : CaptureArg)
    (includeRaw : bool) : Export (WACZ (PageLine lib)) :=
  match capture with
  | NotMischief _ => InvalidCapture
  | IsMischief c =>
      if bool_decide (state c ∈ validStates)
      then match toWarc lib c with
           | Throws err => CalleeThrew err
           | Returns warc => Exported (fill_wacz lib c includeRaw warc)
           end
      else InvalidCapture
  end.

(** [mischiefToWacz(capture, includeRaw = false)] *)
Definition mischiefToWacz (lib : WaczLib) (capture : CaptureArg)
    (includeRaw : bool) : Export bytes :=
  match mischiefToWacz_container lib capture includeRaw with
  | Exported wacz =>
      match finalize lib wacz with
      | Returns archive => Exported archive
      | Throws err => CalleeThrew err
      end
  | InvalidCapture => InvalidCapture
  | CalleeThrew err => CalleeThrew err
  end.

(** ** The archive decoder *)

(** Modelled from the spec: one record of the primary record file.  The file
    holds, for every exchange in store order, a request record and a
    response record whose bodies reproduce the raw bytes captured. *)
Record WarcRecord : Type := mkRecord {
  rec_type : Direction;
  rec_date : Z;
  rec_id : option string;
  rec_body : bytes
}.

(** Modelled from the spec: the request record and the response record of
    one exchange. *)
Definition records_of_exchange (ex : MischiefExchange) : list WarcRecord :=
  [mkRecord request (date ex) (id ex) (raw_bytes request ex);
   mkRecord response (date ex) (id ex) (raw_bytes response ex)].

(** Modelled from the spec: the records of the primary record file, for
    every exchange in store order. *)
Definition records_of (exs : list MischiefExchange) : list WarcRecord :=
  exs ≫= records_of_exchange.

(** Modelled from the spec: an exchange of a reconstructed capture, with the
    fields of the data model that the record file carries: correlation id,
    timestamp and the two raw byte sequences (an unset buffer is the empty
    sequence). *)
Record ExchangeView : Type := mkView {
  view_id : option string;
  view_date : Z;
  view_request : bytes;
  view_response : bytes
}.

(** The fields of an exchange of the original capture that are compared
    with a reconstructed one. *)
Definition exchange_view (ex : MischiefExchange) : ExchangeView :=
  mkView (id ex) (date ex) (raw_bytes request ex) (raw_bytes response ex).

(** Modelled from the spec: the capture-shaped object the decoder returns,
    reduced to the three fields the round trip is about. *)
Record DecodedCapture : Type := mkDecoded {
  dec_exchanges : list ExchangeView;
  dec_generated : list MischiefGeneratedExchange;
  dec_provenance : option ProvenanceInfo
}.

(** The readers that undo [capture.toWarc()] and
    [mischiefExchangeToPageLine]; like these two they are not among the
    sources at hand. *)
Record ArchiveReader (lib : WaczLib) : Type := mkReader {
  warc_read : bytes → option (list WarcRecord);
  page_read : PageLine lib → option MischiefGeneratedExchange
}.
Arguments warc_read {lib} _ _.
Arguments page_read {lib} _ _.

(** Modelled from the spec: consecutive request / response records of one
    exchange are put back together; anything else is a malformed file. *)
Fixpoint pair_records (rs : list WarcRecord) : option (list ExchangeView) :=
  match rs with
  | [] => Some []
  | rq :: rp :: rest =>
      if bool_decide (rec_type rq = request) && bool_decide (rec_type rp = response)
         && bool_decide (rec_date rq = rec_date rp)
         && bool_decide (rec_id rq = rec_id rp)
      then
        match pair_records rest with
        | Some views =>
            Some (mkView (rec_id rq) (rec_date rq) (rec_body rq) (rec_body rp) :: views)
        | None => None
        end
      else None
  | [_] => None
  end.

(** Modelled from the spec: where a raw-exchange payload is present it is
    the authoritative byte source, preferred over the body of the record. *)
Definition prefer_raw (fs : gmap string bytes) (r : WarcRecord) : WarcRecord :=
  mkRecord (rec_type r) (rec_date r) (rec_id r)
           (default (rec_body r)
                    (fs !! raw_path_at (rec_type r) (rec_date r) (rec_id r))).

(** Modelled from the spec: the decoder ([decode] in the specification,
    [WACZToScoop] in the tests), on the container the exporter hands to
    [finalize()].  It fails when the record file is missing or malformed or a
    page cannot be read; it rebuilds the exchange list from the record file,
    the generated exchanges from the page list (whose first page is the
    first exchange of the store when there is one) and the provenance from
    the metadata extras. *)
Definition WACZToScoop (lib : WaczLib) (rd : ArchiveReader lib)
    (w : WACZ (PageLine lib)) : option DecodedCapture :=
  match files w !! "archive/data.warc" with
  | None => None
  | Some warc =>
      match warc_read rd warc with
      | None => None
      | Some records =>
          match pair_records (prefer_raw (files w) <$> records) with
          | None => None
          | Some views =>
              let generated_pages :=
                match views with
                | [] => pages w
                | _ :: _ => tail (pages w)
                end in
              match mapM (page_read rd) generated_pages with
              | None => None
              | Some gens => Some (mkDecoded views gens (datapackageExtras w))
              end
          end
      end
  end.

(** The round trip of one capture: the export succeeds, the decoder accepts
    the container, and the three fields come back. *)
Definition roundtrip (lib : WaczLib) (rd : ArchiveReader lib) (c : Mischief)
    (includeRaw : bool) : Prop :=
  ∃ w d,
    mischiefToWacz_container lib (IsMischief c) includeRaw = Exported w
    ∧ WACZToScoop lib rd w = Some d
    ∧ dec_exchanges d = exchange_view <$> exchanges c
    ∧ dec_generated d = generatedExchanges c
    ∧ dec_provenance d = provenanceInfo c.

(** * Vocabulary of the properties *)

Section constructor_vocabulary.
Import ExchangeObject.

(** The keys through which a property can be written: [_request] and
    [_response] are also reached through their setters. *)
Definition sources (k : string) : list string :=
  if bool_decide (k = "_request") then ["_request"; "request"]
  else if bool_decide (k = "_response") then ["_response"; "response"]
  else [k].

Definition special_keys : list string := ["request"; "response"; "__proto__"].

(** The own property an assignment to [key] writes. *)
Definition target (key : string) : string :=
  if bool_decide (key = "request") then "_request"
  else if bool_decide (key = "response") then "_response"
  else key.

End constructor_vocabulary.

(** ** The controller *)

(** The selection rule of [getOrInitExchange] as a proposition: the session
    id matches and either the chunk is a response chunk, or it is a request
    chunk and the exchange has received no response yet. *)
Definition accepts (sid : string) (type : Direction) (ex : MischiefExchange) : Prop :=
  id ex = Some sid
  ∧ (type = response ∨ (type = request ∧ responseRaw ex = None)).

(** [ex'] is [ex] with, possibly, more bytes at the end of its buffers. *)
Definition extends (ex ex' : MischiefExchange) : Prop :=
  id ex' = id ex ∧ date ex' = date ex
  ∧ _request ex' = _request ex ∧ _response ex' = _response ex
  ∧ ∀ d, raw_bytes d ex `prefix_of` raw_bytes d ex'.

(** Every exchange of [exs] is still in [exs'], at its position, with at
    least the bytes it had. *)
Definition retains (exs exs' : list MischiefExchange) : Prop :=
  ∀ i ex, exs !! i = Some ex → ∃ ex', exs' !! i = Some ex' ∧ extends ex ex'.

(** The controller [m'] is a later stage of [m]. *)
Definition evolves (m m' : Mischief) : Prop :=
  totalSize m ≤ totalSize m'
  ∧ retains (exchanges m) (exchanges m')
  ∧ logs m `prefix_of` logs m'
  ∧ options m' = options m
  ∧ url m' = url m.

(** The bytes of a sequence of deliveries. *)
Definition total_bytes (cs : list Chunk) : Z :=
  foldr (λ c n, byteLength (chunk_data c) + n) 0 cs.

(** The two ways the outside reaches the controller while it runs: a
    delivery of the proxy and a call of [teardown()]. *)
Inductive Call : Type :=
| Deliver (c : Chunk)
| CallTeardown.

Definition perform (m : Mischief) (call : Call) : Mischief :=
  match call with
  | Deliver c => ingest c m
  | CallTeardown => fst (teardown m)
  end.

Definition delivered (calls : list Call) : list Chunk :=
  omap (λ call, match call with Deliver c => Some c | CallTeardown => None end) calls.

(** [close()] has been called once more on the handle. *)
Definition closed_once_more (b : Browser) : Browser :=
  match b with
  | NoBrowser => NoBrowser
  | Launched n => Launched (S n)
  end.

(** While capturing, the browser launched by [setup()] is open; once the
    state is [TEARDOWN], [close()] has been called on it exactly once. *)
Definition torn_down_at_most_once (n : nat) (m : Mischief) : Prop :=
  (state m = CAPTURE ∧ browser m = Launched n)
  ∨ (state m = TEARDOWN ∧ browser m = Launched (S n)).

(** The controller as [capture()] has it when the step loop begins. *)
Definition at_loop_entry (env : CaptureEnv) (m : Mischief) : Mischief :=
  let m1 := with_browser (Launched 0)
              (ingest_all (setup_arrivals env) (with_state SETUP m)) in
  with_state CAPTURE (addToLogs (LogStarting (url m1)) false "" m1).

(** The controller as [capture()] has it when the step loop has ended. *)
Definition at_loop_exit (env : CaptureEnv) (m : Mischief) : Mischief :=
  step_loop (length (build_steps (options m))) 0 InitialLoad
            (later_steps (options m)) (step_runs env) (at_loop_entry env m).

(** The end of one loop body, once the deliveries that came in while the
    step was awaited have been processed. *)
Definition settle (n i : nat) (s : Step) (r : StepRun) (m1 : Mischief) : Mischief :=
  let m2 :=
    match rejection r, s with
    | None, ScreenshotStep =>
        with_exchanges
          (exchanges m1 ++ [new_screenshot_exchange (shot_now r) (shot r)]) m1
    | _, _ => m1
    end in
  match rejection r with
  | None => m2
  | Some err =>
      if decide (state m2 = CAPTURE)
      then addToLogs (LogStepFailed (S i) n (step_name s)) true err m2
      else addToLogs (LogStepEnded (S i) n (step_name s)) true "" m2
  end.

(** ** The exporter *)

(** The buffer an exchange stores under the path [p], if any; the response
    is written after the request. *)
Definition own_raw (p : string) (ex : MischiefExchange) : option bytes :=
  match (if decide (p = raw_path response ex) then raw response ex else None) with
  | Some data => Some data
  | None => if decide (p = raw_path request ex) then raw request ex else None
  end.

(** The buffer the exchanges [exs] leave under the path [p]: that of the
    last exchange, in store order, which stores one there. *)
Fixpoint stored (p : string) (exs : list MischiefExchange) : option bytes :=
  match exs with
  | [] => None
  | ex :: rest =>
      match stored p rest with
      | Some data => Some data
      | None => own_raw p ex
      end
  end.

(** The timestamp-and-id key of an exchange. *)
Definition raw_key_of (ex : MischiefExchange) : string :=
  raw_key (date ex) (id ex).

(** ** A reference instance of the missing library *)

Global Instance byte_eq_dec : EqDecision byte := Byte.byte_eq_dec.

Global Instance byte_countable : Countable byte :=
  inj_countable Byte.to_N Byte.of_N Byte.of_to_N.

Global Instance Direction_countable : Countable Direction :=
  inj_countable'
    (λ d, match d with request => false | response => true end)
    (λ b : bool, if b then response else request)
    (λ d, match d with request => eq_refl | response => eq_refl end).

Global Instance WarcRecord_eq_dec : EqDecision WarcRecord.
Proof. solve_decision. Defined.

Global Instance WarcRecord_countable : Countable WarcRecord :=
  inj_countable'
    (λ r, (rec_type r, rec_date r, rec_id r, rec_body r))
    (λ t, mkRecord t.1.1.1 t.1.1.2 t.1.2 t.2)
    (λ r, match r with mkRecord _ _ _ _ => eq_refl end).

(** A positive number as a sequence of bytes, one byte per binary digit. *)
Fixpoint bytes_of_positive (p : positive) : bytes :=
  match p with
  | xH => []
  | xO q => x00 :: bytes_of_positive q
  | xI q => x01 :: bytes_of_positive q
  end.

Fixpoint positive_of_bytes (bs : bytes) : positive :=
  match bs with
  | [] => xH
  | x00 :: rest => xO (positive_of_bytes rest)
  | _ :: rest => xI (positive_of_bytes rest)
  end.

(** A record file writer and its reader: the records, numbered. *)
Definition reference_warc (rs : list WarcRecord) : bytes :=
  bytes_of_positive (encode rs).

Definition reference_warc_read (bs : bytes) : option (list WarcRecord) :=
  decode (positive_of_bytes bs).

(** A library whose page lines are the exchanges themselves and whose
    [finalize()] hands out the record file. *)
Definition reference_lib : WaczLib :=
  mkWaczLib AnyExchange
            (λ c, Returns (reference_warc (records_of (exchanges c))))
            (λ entry, entry)
            (λ w, Returns (default [] (files w !! "archive/data.warc"))).

Definition reference_reader : ArchiveReader reference_lib :=
  mkReader reference_lib reference_warc_read
           (λ page, match page with
                    | Generated g => Some g
                    | Intercepted _ => None
                    end).

(** ** Example captures *)

(** A capture of [https://example.com/] with a budget of four bytes, during
    whose first step the proxy delivers the first bytes of a response and
    the step then fails. *)
Definition example_options : MischiefOptions :=
  mkOptions 4 false false false false false false.

Definition example_capture : Mischief :=
  new_Mischief "https://example.com/" example_options.

Definition status_line : bytes := String.list_byte_of_string "HTTP/1.1 200 OK".

Definition breach_run : StepRun :=
  mkStepRun [mkChunk response status_line "sess-1" 1667469600123]
            (Some "Target closed") [] 0.

Definition quiet_run : StepRun := mkStepRun [] None [] 0.

Definition breach_env : CaptureEnv :=
  mkEnv [] None false
        (λ i, match i with O => breach_run | S _ => quiet_run end) [].

(** The same capture with a budget that is not reached: the first step
    fails while the state is still [CAPTURE]. *)
Definition roomy_options : MischiefOptions :=
  mkOptions 1000 false false false false false false.

Definition roomy_capture : Mischief :=
  new_Mischief "https://example.com/" roomy_options.

Definition status_chunk : Chunk :=
  mkChunk response status_line "sess-1" 1667469600123.

(** [example_capture] once its browser is launched and the loop is entered. *)
Definition capturing : Mischief := at_loop_entry breach_env example_capture.

(** A completed capture of [https://example.com/]: two request / response
    pairs on one connection, and a screenshot marked as an entry point. *)
Definition get_root : bytes := String.list_byte_of_string "GET / HTTP/1.1".
Definition get_style : bytes := String.list_byte_of_string "GET /style.css HTTP/1.1".
Definition png : bytes := String.list_byte_of_string "PNG".

Definition screenshot_page : MischiefGeneratedExchange :=
  mkGenerated (new_screenshot_exchange 1667469605000 png)
              "file:///screenshot.png" (Some true).

Definition hidden_attachment : MischiefGeneratedExchange :=
  mkGenerated (new_screenshot_exchange 1667469606000 png)
              "file:///attachment.png" (Some false).

Definition two_pairs : Mischief :=
  ingest_all [mkChunk request get_root "sess-1" 1667469600123;
              mkChunk response status_line "sess-1" 1667469600200;
              mkChunk request get_style "sess-1" 1667469600300;
              mkChunk response status_line "sess-1" 1667469600400]
             roomy_capture.

Definition archived_capture : Mischief :=
  mkMischief COMPLETE "https://example.com/" roomy_options
             (exchanges two_pairs) [hidden_attachment; screenshot_page]
             (logs two_pairs) (totalSize two_pairs) None NoBrowser.

(** A capture in which the second request on a connection arrives in the
    millisecond in which the first one did. *)
Definition same_millisecond : Mischief :=
  ingest_all [mkChunk request get_root "sess-1" 1667469600123;
              mkChunk response status_line "sess-1" 1667469600123;
              mkChunk request get_style "sess-1" 1667469600123]
             roomy_capture.

Definition twin_capture : Mischief :=
  mkMischief COMPLETE "https://example.com/" roomy_options
             (exchanges same_millisecond) [] (logs same_millisecond)
             (totalSize same_millisecond) None NoBrowser.

(** A completed capture whose provenance summary is set although the
    option that exports it is off. *)
Definition unexported_provenance : Mischief :=
  mkMischief COMPLETE "https://example.com/" roomy_options
             (exchanges two_pairs) [] (logs two_pairs) (totalSize two_pairs)
             (Some [("software", "Mischief"); ("userAgent", "Chrome")])
             NoBrowser.

Definition summarised_options : MischiefOptions :=
  mkOptions 1000 false false false false true true.

(** A completed capture with a screenshot page and an exported provenance
    summary. *)
Definition complete_capture : Mischief :=
  mkMischief COMPLETE "https://example.com/" summarised_options
             (exchanges two_pairs) [screenshot_page] (logs two_pairs)
             (totalSize two_pairs)
             (Some [("software", "Mischief"); ("userAgent", "Chrome")])
             NoBrowser.

Definition root_exchange : MischiefExchange :=
  mkExchange 1667469600123 (Some "sess-1") None None
             (Some get_root) (Some status_line).

(** ** The store, session by session *)

(** The bytes a session has in one direction: those of its exchanges, in
    store order. *)
Definition session_bytes (sid : string) (d : Direction)
    (exs : list MischiefExchange) : bytes :=
  mjoin (raw_bytes d <$> filter (λ ex, id ex = Some sid) exs).

(** The bytes the proxy delivered for a session in one direction, in order
    of arrival. *)
Definition delivered_bytes (sid : string) (d : Direction) (cs : list Chunk) : bytes :=
  mjoin (chunk_data <$> filter (λ c, chunk_session c = sid ∧ chunk_type c = d) cs).

(** The number of bytes held by the buffers of a store. *)
Definition stored_bytes (exs : list MischiefExchange) : Z :=
  foldr (λ ex n, byteLength (raw_bytes request ex)
                 + byteLength (raw_bytes response ex) + n) 0 exs.

(** Of the exchanges of one session, only the last one may still lack a
    response. *)
Definition answered_before_reuse (exs : list MischiefExchange) : Prop :=
  ∀ i j ei ej sid,
    (i < j)%nat → exs !! i = Some ei → exs !! j = Some ej →
    id ei = Some sid → id ej = Some sid →
    is_Some (responseRaw ei).

(** ** The logs *)

Global Instance LogMessage_eq_dec : EqDecision LogMessage.
Proof. solve_decision. Defined.

(** The numbers of the steps announced in the logs, in order. *)
Definition announced (ls : list MischiefLog) : list nat :=
  omap (λ l, match message l with LogStep i _ _ => Some i | _ => None end) ls.

(** How often a message occurs in the logs. *)
Definition occurrences (msg : LogMessage) (ls : list MischiefLog) : nat :=
  length (filter (λ l, message l = msg) ls).

(** While capturing the logs hold [kc] closing notices and [km] budget
    notices; once the state is [TEARDOWN] they hold one closing notice more
    and at most one budget notice more. *)
Definition noticed_once (kc km : nat) (m : Mischief) : Prop :=
  (state m = CAPTURE
   ∧ occurrences LogClosing (logs m) = kc
   ∧ occurrences LogMaxSize (logs m) = km)
  ∨ (state m = TEARDOWN
     ∧ occurrences LogClosing (logs m) = S kc
     ∧ (km ≤ occurrences LogMaxSize (logs m) ≤ S km)%nat).

(** ** The pipeline *)

Global Instance Step_eq_dec : EqDecision Step.
Proof. solve_decision. Defined.

(** Whether the options ask for a step. *)
Definition wanted (o : MischiefOptions) (s : Step) : bool :=
  match s with
  | InitialLoad | NetworkIdle => true
  | BrowserScripts =>
      grabSecondaryResources o || autoPlayMedia o || runSiteSpecificBehaviors o
  | AutoScrollStep => autoScroll o
  | ScreenshotStep => screenshot o
  end.

Definition all_steps : list Step :=
  [InitialLoad; BrowserScripts; AutoScrollStep; ScreenshotStep; NetworkIdle].

(** ** Further examples *)

(** A run whose setup fails after the browser was launched and one chunk
    was delivered. *)
Definition failing_env : CaptureEnv :=
  mkEnv [status_chunk] (Some "browserType.launch: Executable not found") true
        (λ _, quiet_run) [].

(** Props with an id and a name that is only inherited. *)
Definition shadowing_props : list (string * jsval) :=
  [("id", JStr "sess-1"); ("toString", JStr "shadow")].

Definition shadowing_exchange : gmap string jsval :=
  <["toString" := JStr "shadow"]>
    (<["id" := JStr "sess-1"]> (ExchangeObject.fresh 7)).

(** ** Instances of [MischiefExchange] *)

(** The own properties an instance can have: the four declared fields are
    there, and any other own property shadows a name inherited from the
    prototype chain. *)
Definition instance_shaped (o : gmap string jsval) : Prop :=
  (∀ k, k ∈ ExchangeObject.declared_fields → is_Some (o !! k))
  ∧ (∀ k, is_Some (o !! k) →
          k ∉ special_keys
          ∧ (k ∈ ExchangeObject.declared_fields ∨ k ∈ ExchangeObject.inherited_keys)).

(** * Properties *)

(** Closes a decidable closed goal by evaluation. *)
Ltac by_decide := refine (bool_decide_unpack _ _); vm_compute; exact I.

(** ** The constructor of [MischiefExchange] *)

Section constructor.
Import ExchangeObject.

Lemma put_spec o key value o' :
  put o key value = Some o' →
  (key = "__proto__" ∧ o' = o)
  ∨ (key ≠ "__proto__" ∧ o' = <[target key := value]> o).
Proof.
  unfold put, target. intros Hput.
  destruct (bool_decide_reflect (key = "request")) as [->|?];
    [right; by simplify_eq|].
  destruct (bool_decide_reflect (key = "response")) as [->|?];
    [right; by simplify_eq|].
  destruct (bool_decide_reflect (key = "__proto__")) as [->|?].
  - left. destruct (is_object_or_null value); by simplify_eq.
  - right. by simplify_eq.
Qed.

Lemma target_sources key k :
  k ∉ special_keys → key ≠ "__proto__" → (key ∈ sources k ↔ target key = k).
Proof.
  unfold special_keys, sources, target. intros Hk Hkey.
  repeat case_bool_decide; subst; set_solver.
Qed.

Lemma has_property_target o key :
  has_property o key = true → is_Some (o !! "_request") →
  is_Some (o !! "_response") → has_property o (target key) = true.
Proof.
  unfold target, has_property. intros Hin Hrq Hrs.
  repeat case_bool_decide; subst; simpl; try done; tauto.
Qed.

Lemma has_property_insert o key value k :
  has_property o key = true →
  has_property (<[key := value]> o) k = has_property o k.
Proof.
  unfold has_property. intros Hin. destruct (decide (key = k)) as [->|Hne].
  - rewrite lookup_insert_eq. rewrite Hin.
    by rewrite (bool_decide_eq_true_2 (is_Some (Some value))) by eauto.
  - by rewrite lookup_insert_ne.
Qed.

Lemma put_lookup o key value o' k :
  put o key value = Some o' → k ∉ special_keys →
  o' !! k = if bool_decide (key ∈ sources k) then Some value else o !! k.
Proof.
  intros [[-> ->]|[Hkey ->]]%put_spec Hk.
  - rewrite bool_decide_eq_false_2; [done|].
    unfold sources, special_keys in *. repeat case_bool_decide; set_solver.
  - pose proof (target_sources key k Hk Hkey) as Hiff.
    case_bool_decide as Hsrc.
    + apply Hiff in Hsrc as <-. apply lookup_insert_eq.
    + rewrite lookup_insert_ne; [done|]. intros Heq. by apply Hsrc, Hiff.
Qed.

Lemma has_property_put o key value o' k :
  put o key value = Some o' → has_property o key = true →
  is_Some (o !! "_request") → is_Some (o !! "_response") →
  has_property o' k = has_property o k.
Proof.
  intros [[-> ->]|[Hkey ->]]%put_spec Hin Hrq Hrs; [done|].
  apply has_property_insert. by apply has_property_target.
Qed.

Lemma put_keeps_fields o key value o' k :
  put o key value = Some o' → is_Some (o !! k) → is_Some (o' !! k).
Proof.
  intros [[-> ->]|[Hkey ->]]%put_spec Hk; [done|].
  rewrite lookup_insert. case_decide; eauto.
Qed.

Lemma accessor_in_this o key :
  key ∈ accessors → has_property o key = true.
Proof.
  intros Hacc. unfold has_property. apply orb_true_iff. right.
  apply bool_decide_eq_true_2. unfold inherited_keys, class_prototype_keys.
  apply elem_of_app. left. by apply elem_of_cons; right.
Qed.

Lemma sources_in_this o k key :
  key ∈ sources k → has_property o k = true → has_property o key = true.
Proof.
  unfold sources. intros Hsrc Hin.
  destruct (bool_decide_reflect (k = "_request")) as [->|?].
  { apply elem_of_cons in Hsrc as [->|Hsrc]; [done|].
    apply accessor_in_this. apply list_elem_of_singleton in Hsrc as ->.
    unfold accessors. apply elem_of_cons; by left. }
  destruct (bool_decide_reflect (k = "_response")) as [->|?].
  { apply elem_of_cons in Hsrc as [->|Hsrc]; [done|].
    apply accessor_in_this. apply list_elem_of_singleton in Hsrc as ->.
    unfold accessors. apply elem_of_cons; right. apply elem_of_cons; by left. }
  by apply list_elem_of_singleton in Hsrc as ->.
Qed.

(** What the loop of the constructor leaves under a key [k]: the value
    last given to it when [k] was [in this] to begin with, and nothing when
    it was not. *)
Lemma assign_all_lookup entries : ∀ o o' k,
  assign_all o entries = Some o' →
  is_Some (o !! "_request") → is_Some (o !! "_response") →
  k ∉ special_keys →
  o' !! k = if has_property o k
            then match last_assigned (sources k) entries with
                 | Some v => Some v
                 | None => o !! k
                 end
            else None.
Proof.
  induction entries as [|[key value] rest IH]; intros o o' k Hrun Hrq Hrs Hk.
  - simpl in Hrun. inversion Hrun; subst o'. simpl.
    destruct (has_property o k) eqn:Hin; [done|].
    unfold has_property in Hin. apply orb_false_iff in Hin as [Hin _].
    apply bool_decide_eq_false_1 in Hin. by apply eq_None_not_Some.
  - simpl in Hrun. destruct (has_property o key) eqn:Hkey.
    + destruct (put o key value) as [o1|] eqn:Hput; [|done].
      rewrite (IH o1 o' k Hrun) by eauto using put_keeps_fields.
      rewrite (has_property_put _ _ _ _ k Hput Hkey Hrq Hrs).
      destruct (has_property o k); [|done].
      simpl. destruct (last_assigned (sources k) rest); [done|].
      rewrite (put_lookup _ _ _ _ k Hput Hk). by case_bool_decide.
    + rewrite (IH o o' k Hrun Hrq Hrs Hk).
      destruct (has_property o k) eqn:Hin; [|done].
      simpl. destruct (last_assigned (sources k) rest); [done|].
      case_bool_decide as Hsrc; [|done].
      by rewrite (sources_in_this o k key Hsrc Hin) in Hkey.
Qed.

Lemma fresh_own now k :
  is_Some (fresh now !! k) ↔ k ∈ declared_fields.
Proof.
  unfold fresh, declared_fields. rewrite !lookup_insert.
  repeat case_decide; subst; rewrite ?lookup_empty; split; intros Hk;
    try (by eexists); try set_solver.
Qed.

Lemma has_property_fresh now k :
  has_property (fresh now) k = true ↔ k ∈ declared_fields ∨ k ∈ inherited_keys.
Proof.
  unfold has_property. rewrite orb_true_iff, !bool_decide_eq_true.
  by rewrite fresh_own.
Qed.

Lemma special_keys_inherited k : k ∈ special_keys → k ∈ inherited_keys.
Proof.
  unfold special_keys. rewrite !elem_of_cons, elem_of_nil.
  intros [->|[->|[->|[]]]]; by_decide.
Qed.

(** The constructor completes unless [props] has a [__proto__] entry that
    holds an object or [null]. *)
Lemma assign_all_total entries : ∀ o,
  (∀ v, ("__proto__", v) ∈ entries → is_object_or_null v = false) →
  is_Some (assign_all o entries).
Proof.
  induction entries as [|[key value] rest IH]; intros o Hproto; [by eexists|].
  assert (Hrest : ∀ v, ("__proto__", v) ∈ rest → is_object_or_null v = false).
  { intros v Hv. apply Hproto. by apply elem_of_cons; right. }
  simpl. destruct (has_property o key); [|by apply IH].
  unfold put. repeat case_bool_decide; subst; try by apply IH.
  rewrite (Hproto value) by (apply elem_of_cons; by left). by apply IH.
Qed.




End constructor.

(** ** The exchange store *)

Section store.

Lemma findLastIndex_Some {A} (p : A → bool) l i :
  findLastIndex p l = Some i →
  ∃ x, l !! i = Some x ∧ p x = true
       ∧ ∀ j y, (i < j)%nat → l !! j = Some y → p y = false.
Proof.
  revert i. induction l as [|x l IH]; intros i Hfind; [done|].
  simpl in Hfind. destruct (findLastIndex p l) as [i'|] eqn:Hrec.
  - inversion Hfind; subst i. destruct (IH i' eq_refl) as (y & Hy & Hp & Hlast).
    exists y. split; [done|]. split; [done|].
    intros [|j] z Hlt Hz; [lia|]. apply (Hlast j); [lia|done].
  - destruct (p x) eqn:Hpx; [|done]. inversion Hfind; subst i.
    exists x. split; [done|]. split; [done|].
    intros [|j] z Hlt Hz; [lia|]. simpl in Hz.
    clear -Hrec Hz. revert j Hz. induction l as [|a l IHl]; intros j Hz; [done|].
    simpl in Hrec. destruct (findLastIndex p l) eqn:Hl; [done|].
    destruct (p a) eqn:Hpa; [done|]. destruct j as [|j]; simpl in Hz.
    + by inversion Hz; subst.
    + by apply (IHl eq_refl j).
Qed.

Lemma findLastIndex_None {A} (p : A → bool) l :
  findLastIndex p l = None ↔ ∀ x, x ∈ l → p x = false.
Proof.
  induction l as [|x l IH]; simpl.
  - split; [|done]. intros _ y Hy. by apply elem_of_nil in Hy.
  - destruct (findLastIndex p l) as [i|] eqn:Hrec.
    + split; [done|]. intros Hall. exfalso.
      assert (Hnone : Some i = None); [|done].
      apply IH. intros y Hy. apply Hall. by apply elem_of_cons; right.
    + destruct (p x) eqn:Hpx.
      * split; [done|]. intros Hall. rewrite Hall in Hpx; [done|].
        by apply elem_of_cons; left.
      * split; [|done]. intros _ y [->|Hy]%elem_of_cons; [done|].
        by apply IH.
Qed.

Lemma continues_accepts sid type ex :
  continues sid type ex = true ↔ accepts sid type ex.
Proof.
  unfold continues, accepts.
  rewrite andb_true_iff, orb_true_iff, negb_true_iff.
  rewrite !bool_decide_eq_true, bool_decide_eq_false.
  rewrite <- eq_None_not_Some. destruct type; intuition congruence.
Qed.

Lemma continues_rejects sid type ex :
  continues sid type ex = false ↔ ¬ accepts sid type ex.
Proof.
  rewrite <- continues_accepts. by destruct (continues sid type ex).
Qed.

(** When every chunk delivered so far was non-empty, an exchange has
    received no response exactly when it holds no response bytes. *)
Lemma no_response_iff_no_bytes ex :
  responseRaw ex ≠ Some [] →
  (responseRaw ex = None ↔ raw_bytes response ex = []).
Proof.
  unfold raw_bytes. simpl. destruct (responseRaw ex) as [[|b bs]|]; naive_solver.
Qed.

Lemma teardown_exchanges m : exchanges (fst (teardown m)) = exchanges m.
Proof. unfold teardown. case_decide; [done|]. simpl. by destruct (browser m). Qed.

Lemma teardown_totalSize m : totalSize (fst (teardown m)) = totalSize m.
Proof. unfold teardown. case_decide; [done|]. simpl. by destruct (browser m). Qed.

Lemma teardown_options m : options (fst (teardown m)) = options m.
Proof. unfold teardown. case_decide; [done|]. simpl. by destruct (browser m). Qed.

Lemma teardown_state m : state (fst (teardown m)) = TEARDOWN.
Proof. unfold teardown. case_decide; [done|]. simpl. by destruct (browser m). Qed.

(** The store after one delivery: the selected exchange, and only it, has
    the chunk appended. *)
Lemma ingest_exchanges c m :
  exchanges (ingest c m)
  = alter (append_raw (chunk_type c) (chunk_data c))
          (fst (getOrInitExchange (chunk_session c) (chunk_type c) (chunk_now c)
                                  (exchanges m)))
          (snd (getOrInitExchange (chunk_session c) (chunk_type c) (chunk_now c)
                                  (exchanges m))).
Proof.
  unfold ingest, networkInterception.
  destruct (getOrInitExchange _ _ _ _) as [i exs]. simpl.
  case_match; simpl; [|done]. by rewrite teardown_exchanges.
Qed.

Lemma ingest_totalSize c m :
  totalSize (ingest c m) = totalSize m + byteLength (chunk_data c).
Proof.
  unfold ingest, networkInterception.
  destruct (getOrInitExchange _ _ _ _) as [i exs]. simpl.
  case_match; simpl; [|done]. by rewrite teardown_totalSize.
Qed.

Lemma ingest_options c m : options (ingest c m) = options m.
Proof.
  unfold ingest, networkInterception.
  destruct (getOrInitExchange _ _ _ _) as [i exs]. simpl.
  case_match; simpl; [|done]. by rewrite teardown_options.
Qed.

Lemma getOrInitExchange_spec sid type now exs :
  let i := fst (getOrInitExchange sid type now exs) in
  let exs' := snd (getOrInitExchange sid type now exs) in
  (∃ ex, exs' = exs ∧ exs !! i = Some ex ∧ accepts sid type ex
         ∧ ∀ j ex', (i < j)%nat → exs !! j = Some ex' → ¬ accepts sid type ex')
  ∨ ((∀ ex', ex' ∈ exs → ¬ accepts sid type ex')
     ∧ i = length exs ∧ exs' = exs ++ [new_exchange now sid]).
Proof.
  unfold getOrInitExchange.
  destruct (findLastIndex (continues sid type) exs) as [i|] eqn:Hfind; simpl.
  - left. apply findLastIndex_Some in Hfind as (ex & Hex & Hp & Hlast).
    exists ex. split; [done|]. split; [done|].
    split; [by apply continues_accepts|].
    intros j ex' Hlt Hj. apply continues_rejects. by apply (Hlast j).
  - right. split; [|done]. intros ex' Hin. apply continues_rejects.
    by apply (proj1 (findLastIndex_None _ _) Hfind).
Qed.

End store.

Section selection.

Lemma alter_other_positions {A} (f : A → A) (l : list A) i j :
  j ≠ i → alter f i l !! j = l !! j.
Proof. intros Hne. apply list_lookup_alter_ne. congruence. Qed.

(** C2.  The chunk of an ingest call goes to the most recently created
    exchange whose id equals the session id and which, for a request chunk,
    has received no response yet; every other exchange is left as it was.
    When no exchange qualifies, a new exchange with that session id is
    appended at the end of the store and receives the chunk.  Two sequential
    request / response pairs on one session id give exactly two exchanges,
    each with the bytes of its own pair. *)
Theorem C2_chunk_goes_to_latest_open_exchange :
  (∀ c m,
     let sid := chunk_session c in
     let type := chunk_type c in
     let after := exchanges (ingest c m) in
     ∃ i,
       (∀ j, j ≠ i → after !! j = exchanges m !! j)
       ∧ ((∃ ex, exchanges m !! i = Some ex
                 ∧ accepts sid type ex
                 ∧ (∀ j ex', (i < j)%nat → exchanges m !! j = Some ex' →
                             ¬ accepts sid type ex')
                 ∧ after !! i = Some (append_raw type (chunk_data c) ex)
                 ∧ length after = length (exchanges m))
          ∨ ((∀ ex', ex' ∈ exchanges m → ¬ accepts sid type ex')
             ∧ i = length (exchanges m)
             ∧ after = exchanges m
                       ++ [append_raw type (chunk_data c)
                                      (new_exchange (chunk_now c) sid)])))
  ∧ (∀ u o sid q1 p1 q2 p2 t1 t2 t3 t4,
       exchanges (ingest_all [mkChunk request q1 sid t1; mkChunk response p1 sid t2;
                              mkChunk request q2 sid t3; mkChunk response p2 sid t4]
                             (new_Mischief u o))
       = [mkExchange t1 (Some sid) None None (Some q1) (Some p1);
          mkExchange t3 (Some sid) None None (Some q2) (Some p2)]).
Proof.
  split.
  - intros c m sid type after. subst after. rewrite ingest_exchanges.
    pose proof (getOrInitExchange_spec sid type (chunk_now c) (exchanges m)) as Hsel.
    fold sid type. simpl in Hsel.
    destruct (getOrInitExchange sid type (chunk_now c) (exchanges m)) as [i exs].
    simpl in *. exists i.
    destruct Hsel as [(ex & -> & Hex & Hacc & Hlast)|(Hnone & -> & ->)].
    + split; [intros j Hj; by apply alter_other_positions|].
      left. exists ex. split; [done|]. split; [done|]. split; [done|].
      split; [|by rewrite length_alter].
      by rewrite list_lookup_alter_eq, Hex.
    + split.
      * intros j Hj. rewrite alter_other_positions by done.
        destruct (decide (j < length (exchanges m))%nat).
        -- by rewrite lookup_app_l.
        -- rewrite lookup_ge_None_2; [|rewrite length_app; simpl; lia].
           symmetry. apply lookup_ge_None_2. lia.
      * right. split; [done|]. split; [done|].
        apply list_eq. intros j. destruct (decide (j = length (exchanges m))) as [->|Hj].
        -- rewrite list_lookup_alter_eq. rewrite !list_lookup_middle by done. done.
        -- rewrite alter_other_positions by done.
           destruct (decide (j < length (exchanges m))%nat).
           ++ by rewrite !lookup_app_l.
           ++ rewrite !lookup_ge_None_2; [done| |]; rewrite length_app; simpl; lia.
  - intros u o sid q1 p1 q2 p2 t1 t2 t3 t4. unfold ingest_all. simpl.
    rewrite !ingest_exchanges. simpl.
    unfold getOrInitExchange, continues. simpl.
    repeat (rewrite (bool_decide_eq_true_2 (Some sid = Some sid)) by done; simpl).
    reflexivity.
Qed.

End selection.

(** ** What the controller never undoes *)

Section evolution.

Global Instance extends_preorder : PreOrder extends.
Proof.
  split.
  - intros ex. by repeat split.
  - intros a b c (?&?&?&?&Hab) (?&?&?&?&Hbc).
    repeat split; try congruence. intros d. etrans; [apply Hab|apply Hbc].
Qed.

Global Instance retains_preorder : PreOrder retains.
Proof.
  split.
  - intros exs i ex Hex. by exists ex.
  - intros a b c Hab Hbc i ex Hex.
    destruct (Hab i ex Hex) as (ex1 & H1 & He1).
    destruct (Hbc i ex1 H1) as (ex2 & H2 & He2).
    exists ex2. split; [done|]. etrans; [exact He1|exact He2].
Qed.

Global Instance evolves_preorder : PreOrder evolves.
Proof.
  split.
  - intros m. by repeat split.
  - intros a b c (?&Hr1&Hl1&?&?) (?&Hr2&Hl2&?&?).
    split; [lia|]. split; [etrans; [exact Hr1|exact Hr2]|].
    split; [etrans; [exact Hl1|exact Hl2]|]. split; congruence.
Qed.

Lemma append_raw_extends d data ex : extends ex (append_raw d data ex).
Proof.
  unfold append_raw, extends, raw_bytes.
  destruct d, ex as [dt i rq rs qraw praw]; simpl.
  - destruct qraw; simpl; repeat split; intros []; simpl;
      try done; try apply prefix_nil; by apply prefix_app_r.
  - destruct praw; simpl; repeat split; intros []; simpl;
      try done; try apply prefix_nil; by apply prefix_app_r.
Qed.

(** Concatenation, never replacement: after [append_raw] the buffer is the
    old bytes followed by the chunk, and the other buffer is untouched. *)
Lemma append_raw_bytes d data ex :
  raw_bytes d (append_raw d data ex) = raw_bytes d ex ++ data
  ∧ ∀ d', d' ≠ d → raw d' (append_raw d data ex) = raw d' ex.
Proof.
  unfold append_raw, raw_bytes.
  destruct d, ex as [dt i rq rs qraw praw]; simpl.
  - destruct qraw; simpl; (split; [done|]); by intros [].
  - destruct praw; simpl; (split; [done|]); by intros [].
Qed.

Lemma retains_alter f i exs :
  (∀ ex, extends ex (f ex)) → retains exs (alter f i exs).
Proof.
  intros Hf j ex Hex. destruct (decide (j = i)) as [->|Hne].
  - exists (f ex). split; [|done]. by rewrite list_lookup_alter_eq, Hex.
  - exists ex. split; [|done]. by rewrite alter_other_positions.
Qed.

Lemma retains_app exs more : retains exs (exs ++ more).
Proof.
  intros i ex Hex. exists ex. split; [|done].
  rewrite lookup_app_l; [done|]. by eapply lookup_lt_Some.
Qed.

Lemma byteLength_nonneg data : 0 ≤ byteLength data.
Proof. unfold byteLength. lia. Qed.

Lemma teardown_evolves m : evolves m (fst (teardown m)).
Proof.
  unfold teardown. case_decide; [done|]. simpl.
  destruct (browser m); simpl; repeat split; simpl; try done; try lia;
    by apply prefix_app_r.
Qed.

Lemma addToLogs_evolves msg w t m : evolves m (addToLogs msg w t m).
Proof. repeat split; simpl; try done; try lia. by apply prefix_app_r. Qed.

Lemma with_state_evolves s m : evolves m (with_state s m).
Proof. by repeat split. Qed.

Lemma with_browser_evolves b m : evolves m (with_browser b m).
Proof. by repeat split. Qed.

Lemma ingest_evolves c m : evolves m (ingest c m).
Proof.
  assert (Hlogs : logs m `prefix_of` logs (ingest c m)).
  { unfold ingest, networkInterception.
    destruct (getOrInitExchange _ _ _ _) as [i exs]. simpl.
    case_match; simpl; [|done].
    etrans; [|apply teardown_evolves]. simpl. by apply prefix_app_r. }
  assert (Hurl : url (ingest c m) = url m).
  { unfold ingest, networkInterception.
    destruct (getOrInitExchange _ _ _ _) as [i exs]. simpl.
    case_match; simpl; [|done]. by destruct (teardown_evolves
      (addToLogs LogMaxSize false ""
         (with_totalSize (totalSize m + byteLength (chunk_data c))
            (with_exchanges
               (alter (append_raw (chunk_type c) (chunk_data c)) i exs) m))))
      as (_&_&_&_&->). }
  split; [|split; [|split; [done|split; [apply ingest_options|done]]]].
  - rewrite ingest_totalSize. pose proof (byteLength_nonneg (chunk_data c)). lia.
  - rewrite ingest_exchanges. unfold getOrInitExchange.
    destruct (findLastIndex _ _); simpl.
    + apply retains_alter, append_raw_extends.
    + etrans; [apply retains_app|]. apply retains_alter, append_raw_extends.
Qed.

Lemma ingest_all_evolves cs m : evolves m (ingest_all cs m).
Proof.
  revert m. induction cs as [|c cs IH]; intros m; [done|].
  simpl. etrans; [apply ingest_evolves|]. apply IH.
Qed.

Lemma ingest_all_totalSize cs m :
  totalSize (ingest_all cs m) = totalSize m + total_bytes cs.
Proof.
  revert m. induction cs as [|c cs IH]; intros m; [simpl; lia|].
  change (ingest_all (c :: cs) m) with (ingest_all cs (ingest c m)).
  rewrite IH, ingest_totalSize. simpl. lia.
Qed.

Lemma run_fn_evolves s r m : evolves m (run_fn s r m).
Proof.
  unfold run_fn. etrans; [apply (ingest_all_evolves (arrivals r))|].
  destruct (rejection r), s; try done.
  repeat split; simpl; try done; try lia. apply retains_app.
Qed.

Lemma run_step_evolves n i s r m : evolves m (run_step n i s r m).
Proof.
  unfold run_step. etrans; [apply addToLogs_evolves|].
  etrans; [apply run_fn_evolves|].
  destruct (rejection r); [|done]. case_decide; apply addToLogs_evolves.
Qed.

Lemma step_loop_evolves n rest : ∀ i cur runs m,
  evolves m (step_loop n i cur rest runs m).
Proof.
  induction rest as [|next rest IH]; intros i cur runs m; simpl.
  - apply run_step_evolves.
  - case_decide; [|apply run_step_evolves].
    etrans; [apply run_step_evolves|]. apply IH.
Qed.

Lemma setup_evolves env m : evolves m (fst (setup env m)).
Proof.
  unfold setup. destruct (setup_failure env); simpl.
  - destruct (launched_before_failure env).
    + etrans; [|apply with_browser_evolves].
      etrans; [apply (with_state_evolves SETUP)|]. apply ingest_all_evolves.
    + etrans; [apply (with_state_evolves SETUP)|]. apply ingest_all_evolves.
  - etrans; [|apply with_browser_evolves].
    etrans; [apply (with_state_evolves SETUP)|]. apply ingest_all_evolves.
Qed.

Lemma teardown_awaited_evolves env m : evolves m (fst (teardown_awaited env m)).
Proof.
  unfold teardown_awaited. case_decide; [done|].
  pose proof (teardown_evolves m) as Htd.
  destruct (teardown m) as [m1 [[]|err]]; simpl in *; [|done].
  etrans; [exact Htd|]. apply ingest_all_evolves.
Qed.

Lemma capture_evolves env m : evolves m (fst (capture env m)).
Proof.
  unfold capture. pose proof (setup_evolves env m) as Hsetup.
  destruct (setup env m) as [m1 [[]|err]]; simpl in *; [|done].
  set (m4 := step_loop _ _ _ _ _ _).
  assert (Hloop : evolves m m4).
  { etrans; [exact Hsetup|]. etrans; [apply addToLogs_evolves|].
    etrans; [apply (with_state_evolves CAPTURE)|]. apply step_loop_evolves. }
  pose proof (teardown_awaited_evolves env m4) as Htd.
  destruct (teardown_awaited env m4) as [m5 [[]|err]]; simpl in *.
  - etrans; [exact Hloop|]. etrans; [exact Htd|]. apply with_state_evolves.
  - by etrans.
Qed.

End evolution.

(** ** The byte counter *)

Section accounting.

Lemma perform_totalSize calls : ∀ m,
  totalSize (foldl perform m calls) = totalSize m + total_bytes (delivered calls).
Proof.
  induction calls as [|[c|] calls IH]; intros m; simpl.
  - lia.
  - rewrite IH, ingest_totalSize. lia.
  - rewrite IH, teardown_totalSize. lia.
Qed.

(** C3.  In every controller state, and however deliveries interleave with
    calls of teardown, [totalSize] grows by the length of each chunk
    ingested: starting from a new controller it equals the sum of the
    lengths of all chunks ever ingested.  Each chunk is appended to the
    buffer of the selected exchange, which keeps the bytes it had, and the
    other buffer is untouched.  [totalSize] never decreases, neither by an
    ingest call nor over a whole run of [capture()]. *)
Theorem C3_totalSize_is_the_sum_of_all_chunks :
  (∀ calls m,
     totalSize (foldl perform m calls) = totalSize m + total_bytes (delivered calls))
  ∧ (∀ calls u o,
       totalSize (foldl perform (new_Mischief u o) calls)
       = total_bytes (delivered calls))
  ∧ (∀ c m, totalSize (ingest c m) = totalSize m + byteLength (chunk_data c)
            ∧ totalSize m ≤ totalSize (ingest c m))
  ∧ (∀ c m,
       ∃ i before after,
         (exchanges m !! i = Some before
          ∨ (i = length (exchanges m)
             ∧ before = new_exchange (chunk_now c) (chunk_session c)))
         ∧ exchanges (ingest c m) !! i = Some after
         ∧ raw_bytes (chunk_type c) after
           = raw_bytes (chunk_type c) before ++ chunk_data c
         ∧ (∀ d, d ≠ chunk_type c → raw d after = raw d before)
         ∧ id after = id before ∧ date after = date before)
  ∧ (∀ env m, totalSize m ≤ totalSize (fst (capture env m))).
Proof.
  split; [apply perform_totalSize|].
  split; [intros calls u o; rewrite perform_totalSize; simpl; lia|].
  split.
  { intros c m. rewrite ingest_totalSize.
    pose proof (byteLength_nonneg (chunk_data c)). lia. }
  split; [|intros env m; apply capture_evolves].
  intros c m. rewrite ingest_exchanges.
  pose proof (getOrInitExchange_spec (chunk_session c) (chunk_type c) (chunk_now c)
                (exchanges m)) as Hsel.
  destruct (getOrInitExchange _ _ _ _) as [i exs]. simpl in *.
  assert (Hsame : ∀ ex, id (append_raw (chunk_type c) (chunk_data c) ex) = id ex
                        ∧ date (append_raw (chunk_type c) (chunk_data c) ex) = date ex).
  { intros ex.
    by destruct (append_raw_extends (chunk_type c) (chunk_data c) ex) as (?&?&_). }
  destruct Hsel as [(ex & -> & Hex & _)|(_ & -> & ->)].
  - exists i, ex, (append_raw (chunk_type c) (chunk_data c) ex).
    split; [by left|]. split; [by rewrite list_lookup_alter_eq, Hex|].
    split; [apply append_raw_bytes|]. split; [apply append_raw_bytes|]. apply Hsame.
  - eexists (length (exchanges m)), _, (append_raw (chunk_type c) (chunk_data c) _).
    split; [by right|].
    split; [by rewrite list_lookup_alter_eq, list_lookup_middle|].
    split; [apply append_raw_bytes|]. split; [apply append_raw_bytes|]. apply Hsame.
Qed.

End accounting.

(** ** Teardown and the size budget *)

Section budget.

Lemma teardown_noop m : state m = TEARDOWN → teardown m = (m, Returns tt).
Proof. intros Hst. unfold teardown. by case_decide. Qed.

Lemma teardown_first m :
  state m ≠ TEARDOWN →
  state (fst (teardown m)) = TEARDOWN
  ∧ logs (fst (teardown m)) = logs m ++ [mkLog LogClosing false ""]
  ∧ browser (fst (teardown m)) = closed_once_more (browser m).
Proof.
  intros Hst. unfold teardown. case_decide; [done|]. simpl.
  destruct (browser m) eqn:Hb; simpl; by rewrite ?Hb.
Qed.

(** A delivery that reaches the budget while capturing. *)
Lemma ingest_breach c m :
  state m = CAPTURE →
  maxSize (options m) ≤ totalSize m + byteLength (chunk_data c) →
  state (ingest c m) = TEARDOWN
  ∧ logs (ingest c m)
    = logs m ++ [mkLog LogMaxSize false ""; mkLog LogClosing false ""]
  ∧ browser (ingest c m) = closed_once_more (browser m).
Proof.
  intros Hst Hmax. unfold ingest, networkInterception.
  destruct (getOrInitExchange _ _ _ _) as [i exs]. simpl.
  rewrite (proj2 (Z.leb_le _ _) Hmax), bool_decide_eq_true_2 by done. simpl.
  set (m1 := addToLogs _ _ _ _).
  destruct (teardown_first m1) as (-> & -> & ->); [simpl; congruence|].
  simpl. by rewrite <- app_assoc.
Qed.

(** Any other delivery leaves state, logs and browser as they are. *)
Lemma ingest_quiet c m :
  state m ≠ CAPTURE ∨ totalSize m + byteLength (chunk_data c) < maxSize (options m) →
  state (ingest c m) = state m
  ∧ logs (ingest c m) = logs m
  ∧ browser (ingest c m) = browser m.
Proof.
  intros Hq. unfold ingest, networkInterception.
  destruct (getOrInitExchange _ _ _ _) as [i exs]. simpl.
  case_match eqn:Hcond; [|done]. exfalso.
  apply andb_true_iff in Hcond as [Hmax Hst].
  apply Z.leb_le in Hmax. apply bool_decide_eq_true_1 in Hst. simpl in *.
  destruct Hq; [done|lia].
Qed.

Lemma ingest_all_quiet cs : ∀ m,
  state m ≠ CAPTURE →
  state (ingest_all cs m) = state m
  ∧ logs (ingest_all cs m) = logs m
  ∧ browser (ingest_all cs m) = browser m.
Proof.
  induction cs as [|c cs IH]; intros m Hst; [done|].
  change (ingest_all (c :: cs) m) with (ingest_all cs (ingest c m)).
  destruct (ingest_quiet c m) as (Hs & Hl & Hb); [by left|].
  destruct (IH (ingest c m)) as (-> & -> & ->); [congruence|done].
Qed.

Lemma ingest_all_app cs1 cs2 m :
  ingest_all (cs1 ++ cs2) m = ingest_all cs2 (ingest_all cs1 m).
Proof. unfold ingest_all. by rewrite foldl_app. Qed.

Lemma ingest_once n c m :
  torn_down_at_most_once n m → torn_down_at_most_once n (ingest c m).
Proof.
  intros [[Hst Hb]|[Hst Hb]]; unfold torn_down_at_most_once.
  - destruct (Z_lt_le_dec (totalSize m + byteLength (chunk_data c))
                          (maxSize (options m))) as [Hlt|Hge].
    + destruct (ingest_quiet c m) as (-> & _ & ->); [by right|]. by left.
    + destruct (ingest_breach c m Hst Hge) as (-> & _ & ->). right.
      by rewrite Hb.
  - destruct (ingest_quiet c m) as (-> & _ & ->); [left; congruence|]. by right.
Qed.

Lemma ingest_all_once n cs : ∀ m,
  torn_down_at_most_once n m → torn_down_at_most_once n (ingest_all cs m).
Proof.
  induction cs as [|c cs IH]; intros m Hm; [done|].
  apply (IH (ingest c m)). by apply ingest_once.
Qed.

Lemma run_fn_once n s r m :
  torn_down_at_most_once n m → torn_down_at_most_once n (run_fn s r m).
Proof.
  intros Hm. unfold run_fn.
  pose proof (ingest_all_once n (arrivals r) m Hm) as H1.
  by destruct (rejection r), s.
Qed.

Lemma run_step_once k n i s r m :
  torn_down_at_most_once k m → torn_down_at_most_once k (run_step n i s r m).
Proof.
  intros Hm. unfold run_step.
  set (m1 := addToLogs _ _ _ m).
  assert (H1 : torn_down_at_most_once k m1) by exact Hm.
  pose proof (run_fn_once k s r m1 H1) as H2.
  destruct (rejection r); [|done]. by case_decide.
Qed.

Lemma step_loop_once k n rest : ∀ i cur runs m,
  torn_down_at_most_once k m →
  torn_down_at_most_once k (step_loop n i cur rest runs m).
Proof.
  induction rest as [|next rest IH]; intros i cur runs m Hm; simpl.
  - by apply run_step_once.
  - case_decide; [|by apply run_step_once]. by apply IH, run_step_once.
Qed.

End budget.

Section teardown_once.

Lemma teardown_awaited_once env n m :
  torn_down_at_most_once n m →
  ∃ m5, teardown_awaited env m = (m5, Returns tt)
        ∧ state m5 = TEARDOWN ∧ browser m5 = Launched (S n).
Proof.
  intros [[Hst Hb]|[Hst Hb]]; unfold teardown_awaited.
  - case_decide; [congruence|]. unfold teardown. case_decide; [congruence|].
    simpl. rewrite Hb. eexists. split; [done|].
    by destruct (ingest_all_quiet (close_arrivals env)
      (with_browser (Launched (S n))
         (addToLogs LogClosing false "" (with_state TEARDOWN m))))
      as (-> & _ & ->).
  - case_decide; [|done]. by exists m.
Qed.

(** A run whose setup succeeds: the loop, then the awaited teardown, then
    [COMPLETE], which is also the value returned. *)
Lemma capture_after_setup env m :
  setup_failure env = None →
  ∃ m5, teardown_awaited env (at_loop_exit env m) = (m5, Returns tt)
        ∧ state m5 = TEARDOWN ∧ browser m5 = Launched 1
        ∧ capture env m = (with_state COMPLETE m5, Returns COMPLETE).
Proof.
  intros Hok.
  assert (Hexit : torn_down_at_most_once 0 (at_loop_exit env m)).
  { apply step_loop_once. by left. }
  destruct (teardown_awaited_once env 0 _ Hexit) as (m5 & Htd & Hst & Hb).
  exists m5. split; [done|]. split; [done|]. split; [done|].
  unfold capture, setup. rewrite Hok.
  change (step_loop _ _ _ _ _ _) with (at_loop_exit env m). by rewrite Htd.
Qed.

Lemma capture_setup_fails env m err :
  setup_failure env = Some err → snd (capture env m) = Throws err.
Proof. intros Hfail. unfold capture, setup. by rewrite Hfail. Qed.

(** C7.  [teardown()] is idempotent.  Called in state [TEARDOWN] it changes
    nothing and raises nothing; after any first call the state is [TEARDOWN]
    and a second call is such a no-op.  Hence of two calls on a launched
    browser, with any deliveries in between, exactly the first one runs the
    release: [close()] is called once.  Over a whole run of [capture()],
    whether or not the budget was reached, [close()] is called exactly once
    on the browser the run launched, and the run ends in the terminal state
    [COMPLETE]. *)
Theorem C7_teardown_is_idempotent :
  (∀ m, state m = TEARDOWN → teardown m = (m, Returns tt))
  ∧ (∀ m, state (fst (teardown m)) = TEARDOWN
          ∧ teardown (fst (teardown m)) = (fst (teardown m), Returns tt))
  ∧ (∀ m n cs,
       state m ≠ TEARDOWN → browser m = Launched n →
       let m1 := fst (teardown m) in
       let m2 := ingest_all cs m1 in
       snd (teardown m) = Returns tt
       ∧ browser m1 = Launched (S n)
       ∧ teardown m2 = (m2, Returns tt)
       ∧ state m2 = TEARDOWN
       ∧ browser m2 = Launched (S n))
  ∧ (∀ env m,
       setup_failure env = None →
       browser (fst (capture env m)) = Launched 1
       ∧ state (fst (capture env m)) = COMPLETE
       ∧ snd (capture env m) = Returns COMPLETE).
Proof.
  split; [apply teardown_noop|].
  split.
  { intros m. split; [apply teardown_state|].
    apply teardown_noop, teardown_state. }
  split.
  - intros m n cs Hst Hb m1 m2.
    destruct (teardown_first m Hst) as (Hs1 & _ & Hb1).
    destruct (ingest_all_quiet cs m1) as (Hs2 & _ & Hb2).
    { fold m1 in Hs1. congruence. }
    fold m1 in Hs1, Hb1. rewrite Hb in Hb1. simpl in Hb1.
    split.
    { unfold teardown. case_decide; [done|]. simpl. by rewrite Hb. }
    subst m2. split; [done|].
    split; [apply teardown_noop; congruence|]. split; congruence.
  - intros env m Hok.
    destruct (capture_after_setup env m Hok) as (m5 & _ & _ & Hb & ->).
    by repeat split.
Qed.

End teardown_once.

Section pipeline.

Lemma run_step_settle n i s r m :
  run_step n i s r m
  = settle n i s r
      (ingest_all (arrivals r) (addToLogs (LogStep (S i) n (step_name s)) false "" m)).
Proof. unfold run_step, run_fn, settle. by destruct (rejection r), s. Qed.

Lemma settle_state n i s r m1 : state (settle n i s r m1) = state m1.
Proof.
  unfold settle. destruct (rejection r), s; simpl; try done; by case_decide.
Qed.

Lemma settle_evolves n i s r m1 : evolves m1 (settle n i s r m1).
Proof.
  unfold settle. destruct (rejection r), s; simpl;
    try done; try (case_decide; apply addToLogs_evolves).
  repeat split; simpl; try done; try lia. apply retains_app.
Qed.

(** The log entries a delivery can add. *)
Lemma ingest_new_logs c m l :
  l ∈ logs (ingest c m) →
  l ∈ logs m ∨ message l = LogMaxSize ∨ message l = LogClosing.
Proof.
  destruct (decide (state m = CAPTURE)) as [Hst|Hst].
  - destruct (Z_lt_le_dec (totalSize m + byteLength (chunk_data c))
                          (maxSize (options m))) as [Hlt|Hge].
    + destruct (ingest_quiet c m) as (_ & -> & _); [by right|]. by left.
    + destruct (ingest_breach c m Hst Hge) as (_ & -> & _).
      rewrite elem_of_app, !elem_of_cons, elem_of_nil.
      intros [?|[->|[->|[]]]]; auto.
  - destruct (ingest_quiet c m) as (_ & -> & _); [by left|]. by left.
Qed.

Lemma ingest_all_new_logs cs : ∀ m l,
  l ∈ logs (ingest_all cs m) →
  l ∈ logs m ∨ message l = LogMaxSize ∨ message l = LogClosing.
Proof.
  induction cs as [|c cs IH]; intros m l Hl; [by left|].
  change (ingest_all (c :: cs) m) with (ingest_all cs (ingest c m)) in Hl.
  destruct (IH _ _ Hl) as [Hin|Hmsg]; [|by right].
  by apply ingest_new_logs in Hin.
Qed.

(** The log entries one loop body can add all belong to its own step. *)
Lemma run_step_new_logs n i s r m l :
  l ∈ logs (run_step n i s r m) →
  l ∈ logs m
  ∨ message l ∈ [LogStep (S i) n (step_name s); LogMaxSize; LogClosing;
                 LogStepFailed (S i) n (step_name s);
                 LogStepEnded (S i) n (step_name s)].
Proof.
  rewrite run_step_settle. set (m1 := ingest_all _ _).
  assert (Harr : l ∈ logs m1 →
    l ∈ logs m ∨ message l ∈ [LogStep (S i) n (step_name s); LogMaxSize; LogClosing;
                              LogStepFailed (S i) n (step_name s);
                              LogStepEnded (S i) n (step_name s)]).
  { intros Hl. apply ingest_all_new_logs in Hl as [Hl|[Hl|Hl]].
    - simpl in Hl. apply elem_of_app in Hl as [Hl|Hl]; [by left|].
      apply list_elem_of_singleton in Hl as ->. right. simpl. set_solver.
    - right. rewrite Hl. set_solver.
    - right. rewrite Hl. set_solver. }
  unfold settle. destruct (rejection r) as [err|], s; simpl; try done;
    try (case_decide; simpl; rewrite elem_of_app;
         (intros [Hl|Hl]; [by apply Harr|]);
         apply list_elem_of_singleton in Hl as ->; right; simpl; set_solver).
Qed.

(** A loop that stops after its first body has run only that body. *)
Lemma step_loop_stops n i cur rest runs m :
  state (run_step n i cur (runs i) m) ≠ CAPTURE →
  step_loop n i cur rest runs m = run_step n i cur (runs i) m.
Proof. intros Hst. destruct rest; simpl; [done|]. by case_decide. Qed.

(** A loop whose first body leaves the state at [CAPTURE] goes on with the
    next step. *)
Lemma step_loop_advances n i cur next rest runs m :
  state (run_step n i cur (runs i) m) = CAPTURE →
  step_loop n i cur (next :: rest) runs m
  = step_loop n (S i) next rest runs (run_step n i cur (runs i) m).
Proof. intros Hst. simpl. by case_decide. Qed.

(** Every loop, once entered, announces its first step in the logs. *)
Lemma step_loop_announces n rest i cur runs m :
  mkLog (LogStep (S i) n (step_name cur)) false ""
  ∈ logs (step_loop n i cur rest runs m).
Proof.
  assert (Hfirst : mkLog (LogStep (S i) n (step_name cur)) false ""
                   ∈ logs (run_step n i cur (runs i) m)).
  { rewrite run_step_settle.
    set (m0 := addToLogs _ _ _ m).
    assert (Hin : mkLog (LogStep (S i) n (step_name cur)) false "" ∈ logs m0).
    { simpl. apply elem_of_app. right. by apply list_elem_of_singleton. }
    destruct (ingest_all_evolves (arrivals (runs i)) m0) as (_ & _ & Hp1 & _).
    destruct (settle_evolves n i cur (runs i) (ingest_all (arrivals (runs i)) m0))
      as (_ & _ & Hp2 & _).
    destruct Hp1 as [k1 ->] in Hp2. destruct Hp2 as [k2 ->].
    apply elem_of_app; left. by apply elem_of_app; left. }
  destruct rest as [|next rest]; simpl; [done|].
  case_decide; [|done].
  destruct (step_loop_evolves n rest (S i) next runs
              (run_step n i cur (runs i) m)) as (_ & _ & [k ->] & _).
  by apply elem_of_app; left.
Qed.

End pipeline.

Section budget_breach.

(** C4.  An ingest call that brings [totalSize] to at least [maxSize] while
    the state is [CAPTURE] logs the budget notice and triggers teardown: the
    state becomes [TEARDOWN], the closing notice is logged and [close()] is
    called on the browser.  When this happens while step [i] of the pipeline
    is awaited, the loop ends with that step: no later step is announced or
    run.  Nothing ingested up to that point is lost: every exchange is still
    in the store, with at least the bytes it had, when the loop ends and
    when [capture()] returns. *)
Theorem C4_budget_breach_ends_the_pipeline :
  (∀ c m,
     state m = CAPTURE →
     maxSize (options m) ≤ totalSize (ingest c m) →
     state (ingest c m) = TEARDOWN
     ∧ logs (ingest c m)
       = logs m ++ [mkLog LogMaxSize false ""; mkLog LogClosing false ""]
     ∧ browser (ingest c m) = closed_once_more (browser m)
     ∧ retains (exchanges m) (exchanges (ingest c m)))
  ∧ (∀ n i cur rest runs m before c after,
       arrivals (runs i) = before ++ c :: after →
       let started := addToLogs (LogStep (S i) n (step_name cur)) false "" m in
       let at_breach := ingest_all (before ++ [c]) started in
       let final := step_loop n i cur rest runs m in
       state (ingest_all before started) = CAPTURE →
       maxSize (options m) ≤ totalSize at_breach →
       final = run_step n i cur (runs i) m
       ∧ state final = TEARDOWN
       ∧ (∀ j name w t,
            j ≠ S i →
            mkLog (LogStep j n name) w t ∈ logs final →
            mkLog (LogStep j n name) w t ∈ logs m)
       ∧ retains (exchanges at_breach) (exchanges final)
       ∧ totalSize at_breach ≤ totalSize final)
  ∧ (∀ env m,
       setup_failure env = None →
       retains (exchanges (at_loop_exit env m)) (exchanges (fst (capture env m)))
       ∧ totalSize (at_loop_exit env m) ≤ totalSize (fst (capture env m))
       ∧ snd (capture env m) = Returns COMPLETE).
Proof.
  split; [|split].
  - intros c m Hst Hmax. rewrite ingest_totalSize in Hmax.
    destruct (ingest_breach c m Hst Hmax) as (? & ? & ?).
    repeat split; try done. apply ingest_evolves.
  - intros n i cur rest runs m before c after Harr started at_breach final Hst Hmax.
    set (mb := ingest_all before started) in *.
    assert (Hat : at_breach = ingest c mb).
    { unfold at_breach. by rewrite ingest_all_app. }
    assert (Hopt : options mb = options m).
    { destruct (ingest_all_evolves before started) as (_ & _ & _ & Ho & _).
      exact Ho. }
    assert (Hbreach : state at_breach = TEARDOWN).
    { rewrite Hat. apply ingest_breach; [done|].
      rewrite Hopt, <- ingest_totalSize, <- Hat. exact Hmax. }
    assert (Hrun : run_step n i cur (runs i) m
                   = settle n i cur (runs i) (ingest_all after at_breach)).
    { rewrite run_step_settle, Harr.
      rewrite (cons_middle c before after), app_assoc.
      by rewrite (ingest_all_app (before ++ [c]) after). }
    assert (Hstate : state (run_step n i cur (runs i) m) = TEARDOWN).
    { rewrite Hrun, settle_state.
      destruct (ingest_all_quiet after at_breach) as (-> & _); congruence. }
    assert (Hfinal : final = run_step n i cur (runs i) m).
    { apply step_loop_stops. congruence. }
    assert (Hev : evolves at_breach final).
    { rewrite Hfinal, Hrun. etrans; [apply (ingest_all_evolves after)|].
      apply settle_evolves. }
    split; [done|]. split; [congruence|]. split; [|split; apply Hev].
    intros j name w t Hj Hin. rewrite Hfinal in Hin.
    apply run_step_new_logs in Hin as [Hin|Hin]; [done|]. exfalso.
    simpl in Hin. rewrite !elem_of_cons, elem_of_nil in Hin.
    destruct Hin as [Heq|[?|[?|[?|[?|[]]]]]]; try discriminate.
    inversion Heq. congruence.
  - intros env m Hsetup.
    destruct (capture_after_setup env m Hsetup) as (m5 & Htd & _ & _ & ->).
    pose proof (teardown_awaited_evolves env (at_loop_exit env m)) as Hev.
    rewrite Htd in Hev. split; [apply Hev|]. split; [apply Hev|done].
Qed.

End budget_breach.

Section step_failures.

Lemma run_step_rejected n i s r m err :
  rejection r = Some err →
  let m1 := ingest_all (arrivals r)
              (addToLogs (LogStep (S i) n (step_name s)) false "" m) in
  state (run_step n i s r m) = state m1
  ∧ logs (run_step n i s r m)
    = logs m1
      ++ [if decide (state m1 = CAPTURE)
          then mkLog (LogStepFailed (S i) n (step_name s)) true err
          else mkLog (LogStepEnded (S i) n (step_name s)) true ""].
Proof.
  intros Hrej m1. rewrite run_step_settle. fold m1.
  split; [apply settle_state|].
  unfold settle. rewrite Hrej. by case_decide.
Qed.



End step_failures.

Section controller_witnesses.

(** C4, on the run [breach_env] of [example_capture]: the fifteen bytes of
    the status line exceed the budget of four during the first step. *)
Lemma C4_budget_breach_witness :
  (state capturing = CAPTURE
   ∧ maxSize (options capturing) ≤ totalSize (ingest status_chunk capturing)
   ∧ state (ingest status_chunk capturing) = TEARDOWN
   ∧ browser (ingest status_chunk capturing) = Launched 1)
  ∧ (arrivals (step_runs breach_env 0) = [] ++ status_chunk :: []
     ∧ step_loop 2 0 InitialLoad [NetworkIdle] (step_runs breach_env) capturing
       = run_step 2 0 InitialLoad (step_runs breach_env 0) capturing)
  ∧ (setup_failure breach_env = None
     ∧ snd (capture breach_env example_capture) = Returns COMPLETE).
Proof.
  destruct C4_budget_breach_ends_the_pipeline as (Hingest & Hloop & Hcapture).
  assert (Hmax : maxSize (options capturing)
                 ≤ totalSize (ingest status_chunk capturing)) by by_decide.
  split; [|split].
  - destruct (Hingest status_chunk capturing eq_refl Hmax) as (Hst & _ & Hb & _).
    split; [reflexivity|]. split; [exact Hmax|]. split; [exact Hst|exact Hb].
  - split; [reflexivity|].
    destruct (Hloop 2%nat 0%nat InitialLoad [NetworkIdle] (step_runs breach_env)
                capturing [] status_chunk [] eq_refl eq_refl) as (Hfinal & _).
    + by_decide.
    + exact Hfinal.
  - split; [reflexivity|].
    by destruct (Hcapture breach_env example_capture eq_refl) as (_ & _ & Hret).
Defined.


(** C7, on [capturing]: of two calls of [teardown()] the first closes the
    browser and the second does nothing. *)
Lemma C7_teardown_witness :
  (state (with_state TEARDOWN capturing) = TEARDOWN
   ∧ teardown (with_state TEARDOWN capturing)
     = (with_state TEARDOWN capturing, Returns tt))
  ∧ (state capturing ≠ TEARDOWN
     ∧ browser capturing = Launched 0
     ∧ browser (fst (teardown capturing)) = Launched 1
     ∧ browser (ingest_all [status_chunk] (fst (teardown capturing))) = Launched 1)
  ∧ (setup_failure breach_env = None
     ∧ browser (fst (capture breach_env example_capture)) = Launched 1).
Proof.
  destruct C7_teardown_is_idempotent as (Hnoop & _ & Hpair & Hrun).
  split; [|split].
  - split; [reflexivity|]. by apply Hnoop.
  - assert (Hst : state capturing ≠ TEARDOWN) by discriminate.
    destruct (Hpair capturing 0%nat [status_chunk] Hst eq_refl)
      as (_ & Hb1 & _ & _ & Hb2).
    split; [exact Hst|]. split; [reflexivity|]. split; [exact Hb1|exact Hb2].
  - split; [reflexivity|].
    by destruct (Hrun breach_env example_capture eq_refl) as (Hb & _).
Defined.

End controller_witnesses.

(** ** What the exporter stores under a path *)

Section export.

Lemma add_raw_lookup fs ex p :
  add_raw fs ex !! p = match own_raw p ex with
                       | Some data => Some data
                       | None => fs !! p
                       end.
Proof.
  unfold add_raw, own_raw. simpl.
  generalize (raw_path response ex) (raw_path request ex). intros ps pq.
  destruct (responseRaw ex), (requestRaw ex); rewrite ?lookup_insert;
    repeat case_decide; subst; try done; congruence.
Qed.

Lemma add_all_raw_lookup exs : ∀ fs p,
  add_all_raw fs exs !! p = match stored p exs with
                            | Some data => Some data
                            | None => fs !! p
                            end.
Proof.
  induction exs as [|ex rest IH]; intros fs p; [done|].
  change (add_all_raw fs (ex :: rest)) with (add_all_raw (add_raw fs ex) rest).
  rewrite IH. simpl. destruct (stored p rest); [done|]. apply add_raw_lookup.
Qed.

Lemma own_raw_Some p ex data :
  own_raw p ex = Some data → ∃ d, p = raw_path d ex ∧ raw d ex = Some data.
Proof.
  unfold own_raw. repeat case_decide; subst;
    destruct (raw response ex) eqn:Hrs; intros Hown; simplify_eq;
    try (by exists response); by exists request.
Qed.

Lemma stored_Some p exs data :
  stored p exs = Some data →
  ∃ ex d, ex ∈ exs ∧ p = raw_path d ex ∧ raw d ex = Some data.
Proof.
  induction exs as [|ex rest IH]; [done|]. simpl.
  destruct (stored p rest) as [data'|] eqn:Hrest.
  - intros [= ->]. destruct (IH eq_refl) as (ex' & d & Hin & Hp & Hraw).
    exists ex', d. split; [by apply elem_of_cons; right|done].
  - intros (d & Hp & Hraw)%own_raw_Some. exists ex, d.
    split; [by apply elem_of_cons; left|done].
Qed.

(** Paths of different directions differ, and the path determines the
    timestamp-and-id key. *)
Lemma raw_path_at_inj d1 t1 i1 d2 t2 i2 :
  raw_path_at d1 t1 i1 = raw_path_at d2 t2 i2 →
  d1 = d2 ∧ raw_key t1 i1 = raw_key t2 i2.
Proof.
  unfold raw_path_at. destruct d1, d2; simpl; intros Heq;
    by simplify_eq.
Qed.

Lemma raw_path_not_warc d ex : raw_path d ex ≠ "archive/data.warc".
Proof. unfold raw_path, raw_path_at. by destruct d. Qed.

Lemma own_raw_here d ex : own_raw (raw_path d ex) ex = raw d ex.
Proof.
  unfold own_raw. destruct d.
  - rewrite decide_False, decide_True by (try done; intros [? _]%raw_path_at_inj; done).
    done.
  - rewrite decide_True by done. destruct (raw response ex) eqn:Hrs; [done|].
    by case_decide.
Qed.

Lemma stored_warc exs : stored "archive/data.warc" exs = None.
Proof.
  destruct (stored _ exs) as [data|] eqn:Hst; [|done].
  apply stored_Some in Hst as (ex & d & _ & Hp & _).
  symmetry in Hp. by apply raw_path_not_warc in Hp.
Qed.

(** The container a valid capture is exported to. *)
Lemma container_exported lib c includeRaw w :
  mischiefToWacz_container lib (IsMischief c) includeRaw = Exported w →
  state c ∈ validStates
  ∧ ∃ warc, toWarc lib c = Returns warc ∧ w = fill_wacz lib c includeRaw warc.
Proof.
  simpl. case_bool_decide as Hst; [|done].
  destruct (toWarc lib c) as [warc|err]; [|done].
  intros [= <-]. split; [done|]. by exists warc.
Qed.

Lemma fill_wacz_warc lib c includeRaw warc :
  files (fill_wacz lib c includeRaw warc) !! "archive/data.warc" = Some warc.
Proof.
  simpl. destruct includeRaw; [|by rewrite lookup_insert_eq].
  by rewrite add_all_raw_lookup, stored_warc, lookup_insert_eq.
Qed.

Lemma fill_wacz_raw lib c warc d ex :
  files (fill_wacz lib c true warc) !! raw_path d ex
  = stored (raw_path d ex) (exchanges c).
Proof.
  simpl. rewrite add_all_raw_lookup. destruct (stored _ _); [done|].
  rewrite lookup_insert_ne; [done|]. intros Heq. symmetry in Heq.
  by apply raw_path_not_warc in Heq.
Qed.

Lemma raw_path_inj d1 ex1 d2 ex2 :
  raw_path d1 ex1 = raw_path d2 ex2 → d1 = d2 ∧ raw_key_of ex1 = raw_key_of ex2.
Proof. apply raw_path_at_inj. Qed.

(** An exchange's buffer is what is stored under its path unless a later
    exchange stores a buffer under the same path. *)
Lemma stored_last exs : ∀ i ex d data,
  exs !! i = Some ex →
  raw d ex = Some data →
  (∀ j ex' d', (i < j)%nat → exs !! j = Some ex' →
               raw_path d' ex' = raw_path d ex → raw d' ex' = None) →
  stored (raw_path d ex) exs = Some data.
Proof.
  induction exs as [|ex0 rest IH]; intros i ex d data Hi Hraw Hlater; [done|].
  simpl. destruct i as [|i]; simpl in Hi.
  - inversion Hi; subst ex0.
    destruct (stored (raw_path d ex) rest) as [data'|] eqn:Hrest;
      [|by rewrite own_raw_here].
    apply stored_Some in Hrest as (ex' & d' & Hin & Hp & Hraw').
    apply list_elem_of_lookup in Hin as [j Hj].
    rewrite (Hlater (S j) ex' d') in Hraw'; [done|lia|done|done].
  - rewrite (IH i ex d data Hi Hraw); [done|].
    intros j ex' d' Hlt Hj. apply (Hlater (S j)); [lia|done].
Qed.

(** When no two exchanges share their timestamp-and-id key, what is stored
    under the path of an exchange is its own buffer, or nothing. *)
Lemma stored_unique exs : ∀ ex d,
  NoDup (raw_key_of <$> exs) → ex ∈ exs →
  stored (raw_path d ex) exs = raw d ex.
Proof.
  induction exs as [|ex0 rest IH]; intros ex d Hnodup Hin;
    [by apply elem_of_nil in Hin|].
  rewrite fmap_cons in Hnodup. apply list.NoDup_cons in Hnodup as [Hfresh Hnodup].
  simpl. apply elem_of_cons in Hin as [->|Hin].
  - destruct (stored (raw_path d ex0) rest) as [data|] eqn:Hrest;
      [|apply own_raw_here].
    apply stored_Some in Hrest as (ex' & d' & Hin' & Hp & _).
    apply raw_path_inj in Hp as [_ Hkey]. exfalso. apply Hfresh.
    rewrite Hkey. by apply list_elem_of_fmap_2.
  - rewrite (IH ex d Hnodup Hin). destruct (raw d ex) eqn:Hraw; [done|].
    destruct (own_raw (raw_path d ex) ex0) as [data|] eqn:Hown; [|done].
    apply own_raw_Some in Hown as (d' & Hp & _).
    apply raw_path_inj in Hp as [_ Hkey]. exfalso. apply Hfresh.
    rewrite <- Hkey. by apply list_elem_of_fmap_2.
Qed.

End export.

(** ** The reference record file is lossless *)

Section reference_library.

Lemma positive_of_bytes_of_positive p :
  positive_of_bytes (bytes_of_positive p) = p.
Proof. induction p; simpl; by rewrite ?IHp. Qed.

Lemma reference_warc_lossless rs :
  reference_warc_read (reference_warc rs) = Some rs.
Proof.
  unfold reference_warc_read, reference_warc.
  by rewrite positive_of_bytes_of_positive, decode_encode.
Qed.

End reference_library.

Section export_properties.

(** C5.  [mischiefToWacz] fails with its invalid-state error on every
    capture whose state is neither [PARTIAL] nor [COMPLETE], that is in
    [INIT], [SETUP], [CAPTURE], [TEARDOWN] and [ERROR], and on anything that
    is not a [Mischief] object; on a capture in [PARTIAL] or [COMPLETE] it
    does not raise that error, and it returns the archive when its callees
    return. *)
Theorem C5_export_requires_partial_or_complete lib includeRaw :
  (∀ c, state c ≠ PARTIAL → state c ≠ COMPLETE →
        mischiefToWacz lib (IsMischief c) includeRaw = InvalidCapture)
  ∧ (∀ c, state c ∈ [INIT; SETUP; CAPTURE; TEARDOWN; ERROR] →
          mischiefToWacz lib (IsMischief c) includeRaw = InvalidCapture)
  ∧ (∀ v, mischiefToWacz lib (NotMischief v) includeRaw = InvalidCapture)
  ∧ (∀ c, state c = PARTIAL ∨ state c = COMPLETE →
          mischiefToWacz lib (IsMischief c) includeRaw ≠ InvalidCapture)
  ∧ (∀ c warc archive,
       state c = PARTIAL ∨ state c = COMPLETE →
       toWarc lib c = Returns warc →
       finalize lib (fill_wacz lib c includeRaw warc) = Returns archive →
       mischiefToWacz lib (IsMischief c) includeRaw = Exported archive).
Proof.
  assert (Hinvalid : ∀ c, state c ≠ PARTIAL → state c ≠ COMPLETE →
    mischiefToWacz lib (IsMischief c) includeRaw = InvalidCapture).
  { intros c Hp Hc. unfold mischiefToWacz, mischiefToWacz_container, validStates.
    rewrite bool_decide_eq_false_2; [done|].
    rewrite !elem_of_cons, elem_of_nil. tauto. }
  assert (Hvalid : ∀ c, state c = PARTIAL ∨ state c = COMPLETE →
    bool_decide (state c ∈ validStates) = true).
  { intros c Hst. apply bool_decide_eq_true_2. unfold validStates.
    rewrite !elem_of_cons. tauto. }
  split; [exact Hinvalid|]. split; [|split; [done|split]].
  - intros c Hst. rewrite !elem_of_cons, elem_of_nil in Hst.
    apply Hinvalid; destruct Hst as [?|[?|[?|[?|[?|[]]]]]]; congruence.
  - intros c Hst. unfold mischiefToWacz, mischiefToWacz_container.
    rewrite (Hvalid c Hst). destruct (toWarc lib c); [|done].
    by destruct (finalize lib _).
  - intros c warc archive Hst Hwarc Hfin.
    unfold mischiefToWacz, mischiefToWacz_container.
    by rewrite (Hvalid c Hst), Hwarc, Hfin.
Qed.

(** C8.  The page list handed to [finalize()] is the first exchange of the
    store, when there is one, followed by the generated exchanges whose
    [isEntryPoint] is [true], in the order in which they were generated.  So
    an entry-point generated exchange, such as a screenshot, comes after the
    root page. *)
Theorem C8_pages_are_root_then_entry_points lib c includeRaw w :
  mischiefToWacz_container lib (IsMischief c) includeRaw = Exported w →
  pages w
  = mischiefExchangeToPageLine lib
    <$> ((Intercepted <$> take 1 (exchanges c))
         ++ (Generated <$> filter (λ g, isEntryPoint g = Some true)
                                  (generatedExchanges c)))
  ∧ (∀ first rest g,
       exchanges c = first :: rest →
       g ∈ generatedExchanges c → isEntryPoint g = Some true →
       ∃ later,
         pages w = mischiefExchangeToPageLine lib (Intercepted first) :: later
         ∧ mischiefExchangeToPageLine lib (Generated g) ∈ later).
Proof.
  intros (_ & warc & _ & ->)%container_exported. simpl. unfold entryPoints.
  split.
  - by destruct (exchanges c).
  - intros first rest g -> Hg Hentry. eexists. split; [done|].
    apply list_elem_of_fmap_2, list_elem_of_fmap_2.
    by apply list_elem_of_filter.
Qed.

(** C5, on [archived_capture] and on [example_capture], which is still in
    [INIT]. *)
Lemma C5_export_state_witness :
  (state example_capture ≠ PARTIAL ∧ state example_capture ≠ COMPLETE
   ∧ mischiefToWacz reference_lib (IsMischief example_capture) true = InvalidCapture)
  ∧ (state capturing ∈ [INIT; SETUP; CAPTURE; TEARDOWN; ERROR]
     ∧ mischiefToWacz reference_lib (IsMischief capturing) true = InvalidCapture)
  ∧ ((state archived_capture = PARTIAL ∨ state archived_capture = COMPLETE)
     ∧ mischiefToWacz reference_lib (IsMischief archived_capture) true
       ≠ InvalidCapture).
Proof.
  destruct (C5_export_requires_partial_or_complete reference_lib true)
    as (Hother & Hlisted & _ & Hvalid & _).
  split; [|split].
  - split; [discriminate|]. split; [discriminate|].
    apply Hother; discriminate.
  - assert (Hst : state capturing ∈ [INIT; SETUP; CAPTURE; TEARDOWN; ERROR])
      by by_decide.
    split; [exact Hst|]. by apply Hlisted.
  - assert (Hst : state archived_capture = PARTIAL ∨ state archived_capture = COMPLETE)
      by (by right).
    split; [exact Hst|]. by apply Hvalid.
Defined.

(** C8, on [archived_capture]: the root page, then the screenshot; the
    attachment that is not an entry point is left out. *)
Lemma C8_pages_witness :
  mischiefToWacz_container reference_lib (IsMischief archived_capture) false
  = Exported (fill_wacz reference_lib archived_capture false
                (reference_warc (records_of (exchanges archived_capture))))
  ∧ pages (fill_wacz reference_lib archived_capture false
             (reference_warc (records_of (exchanges archived_capture))))
    = [Intercepted (mkExchange 1667469600123 (Some "sess-1") None None
                               (Some get_root) (Some status_line));
       Generated screenshot_page].
Proof.
  assert (Hexp : mischiefToWacz_container reference_lib
                   (IsMischief archived_capture) false
                 = Exported (fill_wacz reference_lib archived_capture false
                     (reference_warc (records_of (exchanges archived_capture)))))
    by reflexivity.
  split; [exact Hexp|].
  destruct (C8_pages_are_root_then_entry_points _ _ _ _ Hexp) as [-> _].
  reflexivity.
Defined.

(** C9, as the specification states it, fails: the two exchanges of
    [twin_capture] have the same timestamp and id, hence the same paths;
    the request of the first one is not in the container, the path holds the
    request of the second. *)
Lemma C9_same_timestamp_and_id_share_a_path :
  ∃ w first,
    mischiefToWacz_container reference_lib (IsMischief twin_capture) true
    = Exported w
    ∧ exchanges twin_capture !! 0%nat = Some first
    ∧ raw request first = Some get_root
    ∧ raw_path request first = "raw/request_2022-11-03T10:00:00.123Z_sess-1"
    ∧ files w !! raw_path request first = Some get_style
    ∧ get_style ≠ get_root.
Proof.
  eexists _, _. split; [reflexivity|]. split; [reflexivity|].
  split; [reflexivity|]. split; [reflexivity|].
  split; [|discriminate].
  rewrite (fill_wacz_raw reference_lib twin_capture _ request). reflexivity.
Qed.

(** C9 (amended).  With the include-raw flag set, the buffer of an exchange
    in a direction is in the container, unchanged, under the path made of
    the direction, the timestamp and the id of the exchange, provided no
    later exchange of the store has a buffer for the same path (the same
    direction, timestamp and id).  Every payload other than the record file
    is the buffer of some exchange, under its path: an exchange contributes
    no payload for a direction in which it has no buffer.  Without the flag
    the container holds no raw payload. *)
Theorem C9_raw_buffers_are_stored_by_path lib c :
  (∀ w i ex d data,
     mischiefToWacz_container lib (IsMischief c) true = Exported w →
     exchanges c !! i = Some ex →
     raw d ex = Some data →
     (∀ j ex' d', (i < j)%nat → exchanges c !! j = Some ex' →
                  raw_path d' ex' = raw_path d ex → raw d' ex' = None) →
     files w !! raw_path d ex = Some data)
  ∧ (∀ w p data,
       mischiefToWacz_container lib (IsMischief c) true = Exported w →
       files w !! p = Some data → p ≠ "archive/data.warc" →
       ∃ ex d, ex ∈ exchanges c ∧ raw d ex = Some data ∧ p = raw_path d ex)
  ∧ (∀ w p,
       mischiefToWacz_container lib (IsMischief c) false = Exported w →
       p ≠ "archive/data.warc" → files w !! p = None)
  ∧ (∀ d ex,
       raw_path d ex
       = "raw/" +:+ direction_name d +:+ "_" +:+ toISOString (date ex)
         +:+ "_" +:+ default "undefined" (id ex)).
Proof.
  split; [|split; [|split; [|done]]].
  - intros w i ex d data (_ & warc & _ & ->)%container_exported Hi Hraw Hlater.
    rewrite fill_wacz_raw. by apply (stored_last _ i).
  - intros w p data (_ & warc & _ & ->)%container_exported Hp Hne.
    simpl in Hp. rewrite add_all_raw_lookup in Hp.
    destruct (stored p (exchanges c)) as [data'|] eqn:Hst.
    + injection Hp as ->.
      apply stored_Some in Hst as (ex & d & Hin & Hpath & Hraw). by exists ex, d.
    + by rewrite lookup_insert_ne in Hp.
  - intros w p (_ & warc & _ & ->)%container_exported Hne. simpl.
    by rewrite lookup_insert_ne.
Qed.

End export_properties.

(** ** The round trip *)

Section round_trip.

Lemma WACZToScoop_provenance lib rd w d :
  WACZToScoop lib rd w = Some d → dec_provenance d = datapackageExtras w.
Proof.
  unfold WACZToScoop. intros Hdec.
  repeat (case_match; try done); by injection Hdec as <-.
Qed.

(** The record file of a store is read back as the store, provided the raw
    payloads the decoder prefers are those of the exchanges themselves. *)
Lemma pair_records_of fs exs :
  (∀ ex d, ex ∈ exs →
           default (raw_bytes d ex) (fs !! raw_path d ex) = raw_bytes d ex) →
  pair_records (prefer_raw fs <$> records_of exs) = Some (exchange_view <$> exs).
Proof.
  induction exs as [|ex rest IH]; intros Hraw; [done|].
  unfold records_of. rewrite bind_cons. fold (records_of rest).
  simpl. rewrite !bool_decide_eq_true_2 by done. simpl.
  change (list_fmap _ _ (prefer_raw fs) (records_of rest))
    with (prefer_raw fs <$> records_of rest).
  rewrite IH.
  - pose proof (Hraw ex request) as Hq. pose proof (Hraw ex response) as Hp.
    unfold raw_path in Hq, Hp.
    rewrite Hq, Hp by (by apply elem_of_cons; left). done.
  - intros ex' d Hin. apply Hraw. by apply elem_of_cons; right.
Qed.

Lemma read_generated_pages lib (rd : ArchiveReader lib) gens :
  (∀ g, g ∈ gens →
        page_read rd (mischiefExchangeToPageLine lib (Generated g)) = Some g) →
  mapM (page_read rd) (mischiefExchangeToPageLine lib <$> (Generated <$> gens))
  = Some gens.
Proof.
  intros Hread. apply mapM_Some_2. rewrite <- list_fmap_compose.
  apply Forall2_fmap_l, Forall_Forall2_diag, list.Forall_forall. exact Hread.
Qed.

Lemma filter_all_entry_points (gens : list MischiefGeneratedExchange) :
  (∀ g, g ∈ gens → isEntryPoint g = Some true) →
  filter (λ g, isEntryPoint g = Some true) gens = gens.
Proof.
  induction gens as [|g rest IH]; intros Hall; [done|].
  rewrite filter_cons_True by (by apply Hall, elem_of_cons; left).
  rewrite IH; [done|]. intros g' Hin. by apply Hall, elem_of_cons; right.
Qed.

(** Whatever the library and the readers, the provenance of
    [unexported_provenance] is not in the container. *)
Lemma provenance_gate lib rd includeRaw :
  ¬ roundtrip lib rd unexported_provenance includeRaw.
Proof.
  intros (w & d & Hexp & Hdec & _ & _ & Hprov).
  apply container_exported in Hexp as (_ & warc & _ & ->).
  apply WACZToScoop_provenance in Hdec. rewrite Hdec in Hprov. done.
Qed.



End round_trip.

Section export_witnesses.

(** C9 (amended), on [complete_capture], whose two exchanges were created
    at different times. *)
Lemma C9_raw_buffers_witness :
  mischiefToWacz_container reference_lib (IsMischief complete_capture) true
  = Exported (fill_wacz reference_lib complete_capture true
                (reference_warc (records_of (exchanges complete_capture))))
  ∧ exchanges complete_capture !! 0%nat = Some root_exchange
  ∧ raw request root_exchange = Some get_root
  ∧ raw_path request root_exchange = "raw/request_2022-11-03T10:00:00.123Z_sess-1"
  ∧ files (fill_wacz reference_lib complete_capture true
             (reference_warc (records_of (exchanges complete_capture))))
    !! raw_path request root_exchange = Some get_root.
Proof.
  destruct (C9_raw_buffers_are_stored_by_path reference_lib complete_capture)
    as (Hstored & _).
  assert (Hexp : mischiefToWacz_container reference_lib
                   (IsMischief complete_capture) true
                 = Exported (fill_wacz reference_lib complete_capture true
                     (reference_warc (records_of (exchanges complete_capture)))))
    by reflexivity.
  split; [exact Hexp|]. split; [reflexivity|]. split; [reflexivity|].
  split; [reflexivity|].
  apply (Hstored _ 0%nat root_exchange request get_root Hexp eq_refl eq_refl).
  intros [|[|j]] ex' d' Hlt Hj Hpath; [lia| |discriminate Hj].
  injection Hj as <-. destruct d'; vm_compute in Hpath; discriminate Hpath.
Defined.


(** C2, on the two request / response pairs of [two_pairs]. *)
Lemma C2_two_pairs_witness :
  exchanges two_pairs
  = [root_exchange;
     mkExchange 1667469600300 (Some "sess-1") None None
                (Some get_style) (Some status_line)].
Proof.
  destruct C2_chunk_goes_to_latest_open_exchange as [_ Hpairs].
  exact (Hpairs "https://example.com/" roomy_options "sess-1"
                get_root status_line get_style status_line
                1667469600123 1667469600200 1667469600300 1667469600400).
Defined.

(** C3, on the same four chunks: 14 + 15 + 23 + 15 bytes. *)
Lemma C3_two_pairs_witness : totalSize two_pairs = 67.
Proof.
  destruct C3_totalSize_is_the_sum_of_all_chunks as (_ & Hsum & _).
  exact (Hsum [Deliver (mkChunk request get_root "sess-1" 1667469600123);
               Deliver (mkChunk response status_line "sess-1" 1667469600200);
               Deliver (mkChunk request get_style "sess-1" 1667469600300);
               Deliver (mkChunk response status_line "sess-1" 1667469600400)]
              "https://example.com/" roomy_options).
Defined.

End export_witnesses.

(** * Further properties of the controller *)

Section sessions.

Lemma findLastIndex_split {A} (p : A → bool) l i :
  findLastIndex p l = Some i →
  ∃ pre x post, l = pre ++ x :: post ∧ length pre = i ∧ p x = true
                ∧ Forall (λ y, p y = false) post.
Proof.
  intros (x & Hx & Hp & Hlast)%findLastIndex_Some.
  apply list_elem_of_split_length in Hx as (pre & post & -> & ->).
  exists pre, x, post. split; [done|]. split; [done|]. split; [done|].
  apply list.Forall_forall. intros y [j Hj]%list_elem_of_lookup.
  apply (Hlast (length pre + S j)%nat); [lia|].
  rewrite lookup_app_r by lia.
  replace (length pre + S j - length pre)%nat with (S j) by lia. done.
Qed.

(** One delivery, seen on the store: either an exchange of the session
    which no later exchange of the store can stand in for receives the chunk
    in place, or no exchange qualifies and a new one is appended. *)
Lemma ingest_in_place_or_append c m :
  let sid := chunk_session c in
  let d := chunk_type c in
  (∃ pre ex post,
     exchanges m = pre ++ ex :: post
     ∧ accepts sid d ex
     ∧ Forall (λ ex', ¬ accepts sid d ex') post
     ∧ exchanges (ingest c m) = pre ++ append_raw d (chunk_data c) ex :: post)
  ∨ (Forall (λ ex', ¬ accepts sid d ex') (exchanges m)
     ∧ exchanges (ingest c m)
       = exchanges m ++ [append_raw d (chunk_data c) (new_exchange (chunk_now c) sid)]).
Proof.
  intros sid d. rewrite ingest_exchanges. unfold getOrInitExchange. fold sid d.
  destruct (findLastIndex (continues sid d) (exchanges m)) as [i|] eqn:Hfind; simpl.
  - left. apply findLastIndex_split in Hfind as (pre & ex & post & -> & <- & Hp & Hpost).
    exists pre, ex, post. split; [done|].
    split; [by apply continues_accepts|]. split.
    + eapply list.Forall_impl; [exact Hpost|]. intros ex' Hex'.
      by apply continues_rejects.
    + replace (length pre) with (length pre + 0)%nat by lia.
      by rewrite alter_app_r.
  - right. split.
    + apply list.Forall_forall. intros ex' Hin. apply continues_rejects.
      by apply (proj1 (findLastIndex_None _ _) Hfind).
    + replace (length (exchanges m)) with (length (exchanges m) + 0)%nat by lia.
      by rewrite alter_app_r.
Qed.

Lemma append_raw_id d data ex : id (append_raw d data ex) = id ex.
Proof. by destruct (append_raw_extends d data ex) as (? & _). Qed.

Lemma append_raw_other d d' data ex :
  d' ≠ d → raw_bytes d' (append_raw d data ex) = raw_bytes d' ex.
Proof.
  intros Hne. unfold raw_bytes.
  by rewrite (proj2 (append_raw_bytes d data ex) d' Hne).
Qed.

Lemma append_raw_same d data ex :
  raw_bytes d (append_raw d data ex) = raw_bytes d ex ++ data.
Proof. apply append_raw_bytes. Qed.

(** What [capture()] keeps: a property of the controller that survives a
    change of state, of the browser handle and of the logs, a delivery, and
    the arrival of a screenshot exchange survives the whole run. *)
Lemma capture_keeps (P : Mischief → Prop) :
  (∀ s m, P m → P (with_state s m)) →
  (∀ b m, P m → P (with_browser b m)) →
  (∀ msg w t m, P m → P (addToLogs msg w t m)) →
  (∀ c m, P m → P (ingest c m)) →
  (∀ t body m,
     P m → P (with_exchanges (exchanges m ++ [new_screenshot_exchange t body]) m)) →
  ∀ env m, P m → P (fst (capture env m)).
Proof.
  intros Hstate Hbrowser Hlog Hingest Hshot.
  assert (Hall : ∀ cs m, P m → P (ingest_all cs m)).
  { induction cs as [|c cs IH]; intros m Hm; [done|]. by apply (IH (ingest c m)), Hingest. }
  assert (Htd : ∀ m, P m → P (fst (teardown m))).
  { intros m Hm. unfold teardown. case_decide; [done|]. simpl.
    destruct (browser m); simpl; [by apply Hlog, Hstate|].
    by apply Hbrowser, Hlog, Hstate. }
  assert (Hstep : ∀ n i s r m, P m → P (run_step n i s r m)).
  { intros n i s r m Hm. rewrite run_step_settle. unfold settle.
    set (m1 := ingest_all _ _). assert (H1 : P m1) by by apply Hall, Hlog.
    destruct (rejection r), s; simpl; try done;
      try (case_decide; by apply Hlog). by apply Hshot. }
  assert (Hloop : ∀ n rest i cur runs m, P m → P (step_loop n i cur rest runs m)).
  { intros n rest. induction rest as [|next rest IH]; intros i cur runs m Hm; simpl.
    - by apply Hstep.
    - case_decide; [|by apply Hstep]. by apply IH, Hstep. }
  intros env m Hm. unfold capture, setup.
  assert (H1 : P (ingest_all (setup_arrivals env) (with_state SETUP m)))
    by by apply Hall, Hstate.
  destruct (setup_failure env) as [err|]; simpl.
  { destruct (launched_before_failure env); [by apply Hbrowser|done]. }
  set (m4 := step_loop _ _ _ _ _ _).
  assert (H4 : P m4).
  { apply Hloop, Hstate, Hlog. by apply Hbrowser. }
  unfold teardown_awaited. case_decide; simpl; [by apply Hstate|].
  pose proof (Htd m4 H4) as H5.
  destruct (teardown m4) as [m5 [[]|err]]; simpl in *; [|done].
  by apply Hstate, Hall.
Qed.

(** A delivery leaves every exchange that is not of its session exactly as
    it was, where it was; it never removes an exchange, adds at most one,
    and adds none for a response chunk of a session that has an exchange. *)
Theorem delivery_touches_one_session c m :
  (∀ i ex, exchanges m !! i = Some ex → id ex ≠ Some (chunk_session c) →
           exchanges (ingest c m) !! i = Some ex)
  ∧ (length (exchanges (ingest c m)) = length (exchanges m)
     ∨ length (exchanges (ingest c m)) = S (length (exchanges m)))
  ∧ (chunk_type c = response →
     (∃ ex, ex ∈ exchanges m ∧ id ex = Some (chunk_session c)) →
     length (exchanges (ingest c m)) = length (exchanges m)).
Proof.
  destruct (ingest_in_place_or_append c m)
    as [(pre & ex0 & post & Hm & Hacc & Hpost & ->)|[Hnone ->]]; rewrite ?Hm.
  - split; [|split].
    + intros i ex Hi Hid. destruct (decide (i = length pre)) as [->|Hne].
      * rewrite list_lookup_middle in Hi by done. injection Hi as <-.
        by destruct Hacc as [Hacc _].
      * destruct (decide (i < length pre)%nat).
        -- rewrite lookup_app_l in Hi |- * by done. done.
        -- rewrite lookup_app_r in Hi |- * by lia.
           destruct (i - length pre)%nat as [|k] eqn:Hk; [lia|]. done.
    + left. rewrite !length_app. done.
    + intros _ _. rewrite !length_app. done.
  - split; [|split].
    + intros i ex Hi Hid. rewrite lookup_app_l; [done|]. by eapply lookup_lt_Some.
    + right. rewrite length_app. simpl. lia.
    + intros Hresp (ex & Hin & Hid). exfalso.
      rewrite list.Forall_forall in Hnone. apply (Hnone ex Hin).
      split; [done|by left].
Qed.

Lemma append_raw_keeps_response d data ex :
  is_Some (responseRaw ex) → is_Some (responseRaw (append_raw d data ex)).
Proof.
  unfold append_raw. destruct d, ex as [dt i rq rs qraw praw]; simpl;
    destruct qraw, praw; simpl; intros [? ?]; eauto; done.
Qed.

Lemma answered_before_reuse_ingest c m :
  answered_before_reuse (exchanges m) →
  answered_before_reuse (exchanges (ingest c m)).
Proof.
  intros Hinv. rewrite ingest_exchanges.
  pose proof (getOrInitExchange_spec (chunk_session c) (chunk_type c) (chunk_now c)
                (exchanges m)) as Hsel.
  destruct (getOrInitExchange _ _ _ _) as [i0 exs]. simpl in *.
  set (f := append_raw (chunk_type c) (chunk_data c)).
  assert (Hback : ∀ i e, alter f i0 exs !! i = Some e →
    ∃ e0, exs !! i = Some e0 ∧ id e = id e0
          ∧ (is_Some (responseRaw e0) → is_Some (responseRaw e))).
  { intros i e. destruct (decide (i = i0)) as [->|Hne].
    - rewrite list_lookup_alter_eq. destruct (exs !! i0) as [e0|]; [|done].
      intros [= <-]. exists e0. split; [done|].
      split; [apply append_raw_id|apply append_raw_keeps_response].
    - rewrite alter_other_positions by done. intros He. by exists e. }
  destruct Hsel as [(ex & -> & _)|(Hnone & -> & ->)].
  - intros i j ei ej sid Hlt Hi Hj Hidi Hidj.
    apply Hback in Hi as (ei0 & Hi & Hei & Hkeep).
    apply Hback in Hj as (ej0 & Hj & Hej & _).
    apply Hkeep. apply (Hinv i j ei0 ej0 sid); congruence.
  - intros i j ei ej sid Hlt Hi Hj Hidi Hidj.
    apply Hback in Hi as (ei0 & Hi & Hei & Hkeep).
    apply Hback in Hj as (ej0 & Hj & Hej & _).
    apply Hkeep.
    assert (Hilt : (i < length (exchanges m))%nat).
    { apply lookup_lt_Some in Hj. rewrite length_app in Hj. simpl in Hj. lia. }
    rewrite lookup_app_l in Hi by done.
    destruct (decide (j < length (exchanges m))%nat) as [Hjlt|Hjge].
    + rewrite lookup_app_l in Hj by done.
      apply (Hinv i j ei0 ej0 sid); congruence.
    + assert (j = length (exchanges m)) as ->.
      { apply lookup_lt_Some in Hj. rewrite length_app in Hj. simpl in Hj. lia. }
      rewrite list_lookup_middle in Hj by done. injection Hj as <-.
      simpl in Hej. assert (sid = chunk_session c) as -> by congruence.
      destruct (responseRaw ei0) as [rs|] eqn:Hrs; [by eexists|]. exfalso.
      apply (Hnone ei0); [by eapply list_elem_of_lookup_2|].
      split; [congruence|]. destruct (chunk_type c); [by right|by left].
Qed.

Lemma filter_nothing {A} (P : A → Prop) `{∀ x, Decision (P x)} (l : list A) :
  (∀ x, x ∈ l → ¬ P x) → filter P l = [].
Proof.
  intros Hnone. destruct (filter P l) as [|x rest] eqn:Hf; [done|]. exfalso.
  assert (Hx : x ∈ filter P l) by (rewrite Hf; by apply elem_of_cons; left).
  apply list_elem_of_filter in Hx as [HP Hin]. by apply (Hnone x).
Qed.

(** The bytes of a session after one delivery: those it had, followed by
    the chunk when the chunk is of that session and direction. *)
Lemma session_bytes_ingest c m sid d :
  answered_before_reuse (exchanges m) →
  session_bytes sid d (exchanges (ingest c m))
  = session_bytes sid d (exchanges m)
    ++ (if decide (chunk_session c = sid ∧ chunk_type c = d)
        then chunk_data c else []).
Proof.
  intros Hinv. unfold session_bytes.
  destruct (ingest_in_place_or_append c m)
    as [(pre & ex0 & post & Hm & Hacc & Hpost & ->)|[Hnone ->]].
  - rewrite Hm, !list.filter_app. destruct Hacc as [Hid Hopen].
    destruct (decide (chunk_session c = sid)) as [<-|Hsid].
    + assert (Hlast : filter (λ ex, id ex = Some (chunk_session c)) post = []).
      { apply filter_nothing.
        intros ej [k Hk]%list_elem_of_lookup Hidj.
        destruct Hopen as [Hresp|[Hreq Hnoresp]].
        - rewrite list.Forall_forall in Hpost.
          apply (Hpost ej); [by eapply list_elem_of_lookup_2|].
          split; [done|by left].
        - assert (Hsome : is_Some (responseRaw ex0)); [|by rewrite Hnoresp in Hsome; destruct Hsome].
          apply (Hinv (length pre) (length pre + S k)%nat ex0 ej (chunk_session c));
            rewrite ?Hm; try done; [lia|by rewrite list_lookup_middle|].
          rewrite lookup_app_r by lia.
          replace (length pre + S k - length pre)%nat with (S k) by lia. done. }
      rewrite !filter_cons_True by (by rewrite ?append_raw_id).
      rewrite Hlast, !fmap_app, !join_app. simpl. rewrite !app_nil_r.
      case_decide as Hc.
      * destruct Hc as [_ <-]. by rewrite append_raw_same, app_assoc.
      * rewrite append_raw_other, app_nil_r; [done|]. intros ->. by apply Hc.
    + rewrite !filter_cons_False by (rewrite ?append_raw_id; congruence).
      rewrite decide_False by tauto. by rewrite app_nil_r.
  - rewrite list.filter_app, fmap_app, join_app. f_equal.
    destruct (decide (chunk_session c = sid)) as [<-|Hsid].
    + rewrite filter_cons_True by (by rewrite append_raw_id). simpl.
      rewrite app_nil_r. case_decide as Hc.
      * destruct Hc as [_ <-]. rewrite append_raw_same. by destruct (chunk_type c).
      * rewrite append_raw_other; [by destruct d|]. intros ->. by apply Hc.
    + rewrite filter_cons_False by (rewrite append_raw_id; simpl; congruence).
      by rewrite decide_False by tauto.
Qed.

Lemma delivered_bytes_cons c cs sid d :
  delivered_bytes sid d (c :: cs)
  = (if decide (chunk_session c = sid ∧ chunk_type c = d) then chunk_data c else [])
    ++ delivered_bytes sid d cs.
Proof.
  unfold delivered_bytes. case_decide.
  - by rewrite filter_cons_True.
  - by rewrite filter_cons_False.
Qed.

(** Demultiplexing is lossless and order preserving.  In a store in which
    only the last exchange of a session may lack a response (an empty store,
    for one), any sequence of deliveries, however the sessions interleave,
    keeps that property and appends to the bytes each session holds in each
    direction exactly the chunks delivered for that session and direction,
    in order of arrival. *)
Theorem deliveries_are_demultiplexed cs : ∀ m,
  answered_before_reuse (exchanges m) →
  answered_before_reuse (exchanges (ingest_all cs m))
  ∧ ∀ sid d,
      session_bytes sid d (exchanges (ingest_all cs m))
      = session_bytes sid d (exchanges m) ++ delivered_bytes sid d cs.
Proof.
  induction cs as [|c cs IH]; intros m Hinv.
  - split; [done|]. intros sid d. unfold delivered_bytes. simpl.
    by rewrite app_nil_r.
  - change (ingest_all (c :: cs) m) with (ingest_all cs (ingest c m)).
    destruct (IH (ingest c m) (answered_before_reuse_ingest c m Hinv)) as [Hinv' Hbytes].
    split; [done|]. intros sid d.
    by rewrite Hbytes, session_bytes_ingest, delivered_bytes_cons, app_assoc.
Qed.

(** A whole run of [capture()], with the deliveries during setup, the steps
    and the release of the browser, and with the exchange the screenshot
    step pushes, keeps the store such that, of the exchanges of one session,
    only the last one may lack a response; this also when the run ends with
    the failure of its setup. *)
Theorem capture_keeps_sessions_answered env m :
  answered_before_reuse (exchanges m) →
  answered_before_reuse (exchanges (fst (capture env m))).
Proof.
  apply (capture_keeps (λ m, answered_before_reuse (exchanges m))); try done.
  - intros c m0. apply answered_before_reuse_ingest.
  - intros t body m0 Hinv i j ei ej sid Hlt Hi Hj Hidi Hidj. simpl in *.
    assert (Hilt : (i < length (exchanges m0))%nat).
    { apply lookup_lt_Some in Hj. rewrite length_app in Hj. simpl in Hj. lia. }
    rewrite lookup_app_l in Hi by done.
    destruct (decide (j < length (exchanges m0))%nat) as [Hjlt|Hjge].
    + rewrite lookup_app_l in Hj by done. by apply (Hinv i j ei ej sid).
    + assert (j = length (exchanges m0)) as ->.
      { apply lookup_lt_Some in Hj. rewrite length_app in Hj. simpl in Hj. lia. }
      rewrite list_lookup_middle in Hj by done. by injection Hj as <-.
Qed.

Lemma stored_bytes_app exs more :
  stored_bytes (exs ++ more) = stored_bytes exs + stored_bytes more.
Proof. induction exs as [|ex exs IH]; simpl; [done|]. rewrite IH. lia. Qed.

Lemma stored_bytes_append_raw d data ex :
  byteLength (raw_bytes request (append_raw d data ex))
  + byteLength (raw_bytes response (append_raw d data ex))
  = byteLength (raw_bytes request ex) + byteLength (raw_bytes response ex)
    + byteLength data.
Proof.
  destruct d.
  - rewrite append_raw_same, (append_raw_other request response) by done.
    unfold byteLength. rewrite length_app. lia.
  - rewrite append_raw_same, (append_raw_other response request) by done.
    unfold byteLength. rewrite length_app. lia.
Qed.

Lemma stored_bytes_ingest c m :
  stored_bytes (exchanges (ingest c m))
  = stored_bytes (exchanges m) + byteLength (chunk_data c).
Proof.
  destruct (ingest_in_place_or_append c m)
    as [(pre & ex0 & post & Hm & _ & _ & ->)|[_ ->]].
  - rewrite Hm, !stored_bytes_app. simpl.
    pose proof (stored_bytes_append_raw (chunk_type c) (chunk_data c) ex0). lia.
  - rewrite stored_bytes_app. simpl.
    pose proof (stored_bytes_append_raw (chunk_type c) (chunk_data c)
                  (new_exchange (chunk_now c) (chunk_session c))) as Hnew.
    simpl in Hnew. unfold byteLength in *. simpl in *. lia.
Qed.

Lemma ingest_all_stored_bytes cs : ∀ m,
  stored_bytes (exchanges (ingest_all cs m))
  = stored_bytes (exchanges m) + total_bytes cs.
Proof.
  induction cs as [|c cs IH]; intros m; [simpl; lia|].
  change (ingest_all (c :: cs) m) with (ingest_all cs (ingest c m)).
  rewrite IH, stored_bytes_ingest. simpl. lia.
Qed.

(** The byte counter and the store never drift apart: over a whole run of
    [capture()], with all its deliveries, steps and the screenshot, the
    difference between [totalSize] and the number of bytes held in the raw
    buffers of the store stays what it was; for a new controller, they are
    equal when the run ends. *)
Theorem totalSize_counts_the_stored_bytes :
  (∀ env m,
     totalSize (fst (capture env m)) - stored_bytes (exchanges (fst (capture env m)))
     = totalSize m - stored_bytes (exchanges m))
  ∧ (∀ env u o,
       totalSize (fst (capture env (new_Mischief u o)))
       = stored_bytes (exchanges (fst (capture env (new_Mischief u o)))))
  ∧ (∀ cs u o,
       totalSize (ingest_all cs (new_Mischief u o))
       = stored_bytes (exchanges (ingest_all cs (new_Mischief u o)))).
Proof.
  assert (Hrun : ∀ env m,
    totalSize (fst (capture env m)) - stored_bytes (exchanges (fst (capture env m)))
    = totalSize m - stored_bytes (exchanges m)).
  { intros env m.
    apply (capture_keeps
             (λ m', totalSize m' - stored_bytes (exchanges m')
                    = totalSize m - stored_bytes (exchanges m))); try done.
    - intros c m0 H0. rewrite ingest_totalSize, stored_bytes_ingest. lia.
    - intros t body m0 H0. simpl. rewrite stored_bytes_app. simpl.
      unfold byteLength. simpl. lia. }
  split; [exact Hrun|]. split.
  - intros env u o. pose proof (Hrun env (new_Mischief u o)) as H0.
    simpl in H0. lia.
  - intros cs u o. rewrite ingest_all_totalSize, ingest_all_stored_bytes.
    simpl. lia.
Qed.

End sessions.

Section selection_again.

Lemma findLastIndex_snoc {A} (p : A → bool) l x :
  findLastIndex p (l ++ [x])
  = if p x then Some (length l) else findLastIndex p l.
Proof.
  induction l as [|y l IH]; simpl; [by destruct (p x)|].
  rewrite IH. destruct (p x); [done|]. by destruct (findLastIndex p l).
Qed.

(** [getOrInitExchange] is idempotent: it returns a position of the store
    it leaves, the exchange there has the session id, and asking again,
    at any later time, returns the same position and creates nothing. *)
Theorem getOrInitExchange_twice sid d now later exs :
  let i := fst (getOrInitExchange sid d now exs) in
  let exs' := snd (getOrInitExchange sid d now exs) in
  (∃ ex, exs' !! i = Some ex ∧ id ex = Some sid)
  ∧ getOrInitExchange sid d later exs' = (i, exs').
Proof.
  unfold getOrInitExchange.
  destruct (findLastIndex (continues sid d) exs) as [i|] eqn:Hfind; simpl.
  - rewrite Hfind. split; [|done].
    apply findLastIndex_Some in Hfind as (ex & Hex & Hp & _).
    exists ex. split; [done|]. by apply continues_accepts in Hp as [? _].
  - rewrite findLastIndex_snoc.
    assert (Hnew : continues sid d (new_exchange now sid) = true).
    { apply continues_accepts. split; [done|]. destruct d; [by right|by left]. }
    rewrite Hnew. split; [|done].
    exists (new_exchange now sid). by rewrite list_lookup_middle.
Qed.

(** A response that arrives before any request of its session opens an
    exchange of its own, and the request that follows does not join it: it
    opens a second exchange, so that the pair ends up in two exchanges. *)
Theorem response_before_request_is_not_paired m sid rs rq t1 t2 :
  (∀ ex, ex ∈ exchanges m → id ex ≠ Some sid) →
  exchanges (ingest (mkChunk request rq sid t2) (ingest (mkChunk response rs sid t1) m))
  = exchanges m ++ [mkExchange t1 (Some sid) None None None (Some rs);
                    mkExchange t2 (Some sid) None None (Some rq) None].
Proof.
  intros Hfresh.
  set (c1 := mkChunk response rs sid t1). set (c2 := mkChunk request rq sid t2).
  assert (H1 : exchanges (ingest c1 m)
               = exchanges m ++ [mkExchange t1 (Some sid) None None None (Some rs)]).
  { destruct (ingest_in_place_or_append c1 m)
      as [(pre & ex0 & post & Hm & [Hid _] & _)|[_ ->]]; [|done].
    exfalso. apply (Hfresh ex0); [|done]. rewrite Hm.
    apply elem_of_app; right. by apply elem_of_cons; left. }
  destruct (ingest_in_place_or_append c2 (ingest c1 m))
    as [(pre & ex0 & post & Hm & [Hid Hopen] & _)|[_ ->]].
  - exfalso. assert (Hin : ex0 ∈ exchanges (ingest c1 m)).
    { rewrite Hm. apply elem_of_app; right. by apply elem_of_cons; left. }
    rewrite H1 in Hin. apply elem_of_app in Hin as [Hin|Hin].
    + by apply (Hfresh ex0).
    + apply list_elem_of_singleton in Hin as ->.
      destruct Hopen as [?|[_ ?]]; done.
  - rewrite H1. by rewrite <- app_assoc.
Qed.

End selection_again.

Section runs.

(** The size budget is enforced only while capturing.  In any other state,
    whatever is delivered and however far [totalSize] gets beyond [maxSize],
    the deliveries are stored and counted, and neither the state, nor the
    logs, nor the browser change. *)
Theorem budget_is_enforced_only_while_capturing cs m :
  state m ≠ CAPTURE →
  state (ingest_all cs m) = state m
  ∧ logs (ingest_all cs m) = logs m
  ∧ browser (ingest_all cs m) = browser m
  ∧ totalSize (ingest_all cs m) = totalSize m + total_bytes cs
  ∧ stored_bytes (exchanges (ingest_all cs m))
    = stored_bytes (exchanges m) + total_bytes cs.
Proof.
  intros Hst. destruct (ingest_all_quiet cs m Hst) as (? & ? & ?).
  repeat split; try done;
    [apply ingest_all_totalSize|apply ingest_all_stored_bytes].
Qed.

(** When [setup()] fails, [capture()] rejects with the error of [setup()]
    and does nothing else: the state is left at [SETUP], nothing is logged,
    teardown does not run, and a browser that had been launched before the
    failure is left open.  What the proxy delivered meanwhile is kept. *)
Theorem failed_setup_is_not_torn_down env m err :
  setup_failure env = Some err →
  snd (capture env m) = Throws err
  ∧ state (fst (capture env m)) = SETUP
  ∧ logs (fst (capture env m)) = logs m
  ∧ browser (fst (capture env m))
    = (if launched_before_failure env then Launched 0 else browser m)
  ∧ totalSize (fst (capture env m)) = totalSize m + total_bytes (setup_arrivals env).
Proof.
  intros Hfail. unfold capture, setup. rewrite Hfail. simpl.
  destruct (ingest_all_quiet (setup_arrivals env) (with_state SETUP m))
    as (Hs & Hl & Hb); [done|].
  pose proof (ingest_all_totalSize (setup_arrivals env) (with_state SETUP m)) as Ht.
  destruct (launched_before_failure env); simpl; by repeat split.
Qed.

Lemma announced_app ls more :
  announced (ls ++ more) = announced ls ++ announced more.
Proof. apply omap_app. Qed.

Lemma ingest_logs c m :
  logs (ingest c m) = logs m
  ∨ (state m = CAPTURE
     ∧ logs (ingest c m)
       = logs m ++ [mkLog LogMaxSize false ""; mkLog LogClosing false ""]).
Proof.
  destruct (decide (state m = CAPTURE)) as [Hst|Hst].
  - destruct (Z_lt_le_dec (totalSize m + byteLength (chunk_data c))
                          (maxSize (options m))) as [Hlt|Hge].
    + left. by destruct (ingest_quiet c m) as (_ & -> & _); [right|].
    + right. by destruct (ingest_breach c m Hst Hge) as (_ & -> & _).
  - left. by destruct (ingest_quiet c m) as (_ & -> & _); [left|].
Qed.

Lemma ingest_all_announced cs : ∀ m,
  announced (logs (ingest_all cs m)) = announced (logs m).
Proof.
  induction cs as [|c cs IH]; intros m; [done|].
  change (ingest_all (c :: cs) m) with (ingest_all cs (ingest c m)).
  rewrite IH. destruct (ingest_logs c m) as [->|[_ ->]]; [done|].
  rewrite announced_app. simpl. by rewrite app_nil_r.
Qed.

Lemma run_step_announced n i s r m :
  announced (logs (run_step n i s r m)) = announced (logs m) ++ [S i].
Proof.
  rewrite run_step_settle. set (m1 := ingest_all _ _).
  assert (H1 : announced (logs m1) = announced (logs m) ++ [S i]).
  { unfold m1. rewrite ingest_all_announced. simpl. by rewrite announced_app. }
  unfold settle. destruct (rejection r), s; simpl; try done;
    case_decide; simpl; rewrite announced_app, H1; simpl; by rewrite app_nil_r.
Qed.

Lemma step_loop_announced n rest : ∀ i cur runs m,
  ∃ k, (k ≤ length rest)%nat
       ∧ announced (logs (step_loop n i cur rest runs m))
         = announced (logs m) ++ seq (S i) (S k)
       ∧ (state (step_loop n i cur rest runs m) = CAPTURE → k = length rest).
Proof.
  induction rest as [|next rest IH]; intros i cur runs m; simpl.
  - exists 0%nat. split; [done|]. split; [apply run_step_announced|done].
  - case_decide as Hst.
    + destruct (IH (S i) next runs (run_step n i cur (runs i) m))
        as (k & Hk & Hann & Hall).
      exists (S k). split; [lia|]. split.
      * rewrite Hann, run_step_announced, <- app_assoc. done.
      * intros Hcap. by rewrite (Hall Hcap).
    + exists 0%nat. split; [lia|]. split; [apply run_step_announced|done].
Qed.

(** The steps of a run begin in the order of the pipeline, each at most
    once and none skipped: the step numbers announced in the logs are
    1, 2, ... up to some step, and up to the last step of the pipeline if
    the state is still [CAPTURE] when the loop ends. *)
Theorem steps_begin_in_pipeline_order env m :
  setup_failure env = None →
  ∃ k, (k ≤ length (later_steps (options m)))%nat
       ∧ announced (logs (fst (capture env m)))
         = announced (logs m) ++ seq 1 (S k)
       ∧ (state (at_loop_exit env m) = CAPTURE →
          S k = length (build_steps (options m))).
Proof.
  intros Hok.
  destruct (capture_after_setup env m Hok) as (m5 & Htd & _ & _ & ->).
  destruct (step_loop_announced (length (build_steps (options m)))
              (later_steps (options m)) 0%nat InitialLoad (step_runs env)
              (at_loop_entry env m)) as (k & Hk & Hann & Hall).
  fold (at_loop_exit env m) in Hann, Hall.
  exists k. split; [done|]. split; [|intros Hcap; simpl; by rewrite (Hall Hcap)].
  assert (Hentry : announced (logs (at_loop_entry env m)) = announced (logs m)).
  { unfold at_loop_entry. simpl. rewrite announced_app. simpl.
    rewrite app_nil_r.
    change (logs (with_browser (Launched 0)
                    (ingest_all (setup_arrivals env) (with_state SETUP m))))
      with (logs (ingest_all (setup_arrivals env) (with_state SETUP m))).
    by rewrite ingest_all_announced. }
  assert (Hexit : announced (logs m5) = announced (logs (at_loop_exit env m))).
  { unfold teardown_awaited in Htd. case_decide; [by injection Htd as <-|].
    unfold teardown in Htd. case_decide; [done|]. simpl in Htd.
    destruct (browser (at_loop_exit env m)); [done|]. injection Htd as <-.
    rewrite ingest_all_announced. simpl. rewrite announced_app. simpl.
    by rewrite app_nil_r. }
  simpl. by rewrite Hexit, Hann, Hentry.
Qed.

End runs.

Section notices.

Lemma occurrences_app msg ls more :
  occurrences msg (ls ++ more) = (occurrences msg ls + occurrences msg more)%nat.
Proof. unfold occurrences. by rewrite list.filter_app, length_app. Qed.

Lemma occurrences_other msg msg' w t :
  msg' ≠ msg → occurrences msg [mkLog msg' w t] = 0%nat.
Proof.
  intros Hne. unfold occurrences. by rewrite filter_cons_False.
Qed.

Lemma breach_notices :
  occurrences LogClosing [mkLog LogMaxSize false ""; mkLog LogClosing false ""] = 1%nat
  ∧ occurrences LogMaxSize [mkLog LogMaxSize false ""; mkLog LogClosing false ""] = 1%nat.
Proof. by split. Qed.

Lemma noticed_once_log kc km msg w t m :
  msg ≠ LogClosing → msg ≠ LogMaxSize →
  noticed_once kc km m → noticed_once kc km (addToLogs msg w t m).
Proof.
  intros Hc Hm. unfold noticed_once. simpl. rewrite !occurrences_app.
  rewrite !(occurrences_other _ msg) by done. by rewrite !Nat.add_0_r.
Qed.

Lemma noticed_once_ingest kc km c m :
  noticed_once kc km m → noticed_once kc km (ingest c m).
Proof.
  intros [(Hst & Hc & Hm)|(Hst & Hc & Hm)]; unfold noticed_once.
  - destruct (Z_lt_le_dec (totalSize m + byteLength (chunk_data c))
                          (maxSize (options m))) as [Hlt|Hge].
    + destruct (ingest_quiet c m) as (-> & -> & _); [by right|]. by left.
    + destruct (ingest_breach c m Hst Hge) as (-> & -> & _). right.
      rewrite !occurrences_app, Hc, Hm. split; [done|].
      destruct breach_notices as [-> ->]. lia.
  - destruct (ingest_quiet c m) as (-> & -> & _); [left; congruence|]. by right.
Qed.

Lemma noticed_once_ingest_all kc km cs : ∀ m,
  noticed_once kc km m → noticed_once kc km (ingest_all cs m).
Proof.
  induction cs as [|c cs IH]; intros m Hm; [done|].
  by apply (IH (ingest c m)), noticed_once_ingest.
Qed.

Lemma noticed_once_step kc km n i s r m :
  noticed_once kc km m → noticed_once kc km (run_step n i s r m).
Proof.
  intros Hm. rewrite run_step_settle. set (m1 := ingest_all _ _).
  assert (H1 : noticed_once kc km m1).
  { by apply noticed_once_ingest_all, noticed_once_log. }
  unfold settle. destruct (rejection r), s; simpl; try done;
    case_decide; by apply noticed_once_log.
Qed.

Lemma noticed_once_loop kc km n rest : ∀ i cur runs m,
  noticed_once kc km m → noticed_once kc km (step_loop n i cur rest runs m).
Proof.
  induction rest as [|next rest IH]; intros i cur runs m Hm; simpl.
  - by apply noticed_once_step.
  - case_decide; [|by apply noticed_once_step]. by apply IH, noticed_once_step.
Qed.

(** Every run of [capture()] whose setup succeeds logs the closing notice
    exactly once and the budget notice at most once, whatever the proxy
    delivers and whichever steps fail. *)
Theorem notices_are_logged_once env m :
  setup_failure env = None →
  occurrences LogClosing (logs (fst (capture env m)))
  = S (occurrences LogClosing (logs m))
  ∧ (occurrences LogMaxSize (logs m)
     ≤ occurrences LogMaxSize (logs (fst (capture env m)))
     ≤ S (occurrences LogMaxSize (logs m)))%nat.
Proof.
  intros Hok.
  destruct (capture_after_setup env m Hok) as (m5 & Htd & _ & _ & ->).
  set (kc := occurrences LogClosing (logs m)).
  set (km := occurrences LogMaxSize (logs m)).
  assert (Hentry : noticed_once kc km (at_loop_entry env m)).
  { left. split; [done|]. unfold at_loop_entry. simpl.
    destruct (ingest_all_quiet (setup_arrivals env) (with_state SETUP m))
      as (_ & Hl & _); [done|].
    change (logs (with_browser (Launched 0)
                    (ingest_all (setup_arrivals env) (with_state SETUP m))))
      with (logs (ingest_all (setup_arrivals env) (with_state SETUP m))).
    rewrite Hl, !occurrences_app, !(occurrences_other _ (LogStarting _)) by done.
    unfold kc, km. simpl. lia. }
  pose proof (noticed_once_loop kc km (length (build_steps (options m)))
                (later_steps (options m)) 0%nat InitialLoad (step_runs env) _ Hentry)
    as Hexit.
  fold (at_loop_exit env m) in Hexit. simpl.
  unfold teardown_awaited in Htd. case_decide as Hst.
  - injection Htd as <-. destruct Hexit as [(? & _)|(_ & Hc & Hm)]; [congruence|].
    done.
  - destruct Hexit as [(_ & Hc & Hm)|(? & _)]; [|congruence].
    unfold teardown in Htd. case_decide; [done|]. simpl in Htd.
    destruct (browser (at_loop_exit env m)); [done|]. injection Htd as <-.
    destruct (ingest_all_quiet (close_arrivals env)
      (with_browser (Launched (S closeCalls))
         (addToLogs LogClosing false "" (with_state TEARDOWN (at_loop_exit env m)))))
      as (_ & -> & _); [done|].
    simpl. rewrite !occurrences_app, Hc, Hm.
    rewrite (occurrences_other LogMaxSize LogClosing) by done.
    change (occurrences LogClosing [mkLog LogClosing false ""]) with 1%nat. lia.
Qed.

End notices.

Section pipeline_shape.

(** The pipeline is the list of the five steps, in their fixed order, with
    the steps left out that the options do not ask for.  So it never repeats
    a step, it begins with the initial load and ends with the wait for
    network idleness, and it has between two and five steps. *)
Theorem pipeline_is_the_wanted_steps_in_order o :
  build_steps o = filter (λ s, wanted o s = true) all_steps
  ∧ NoDup (build_steps o)
  ∧ (∃ middle, build_steps o = InitialLoad :: middle ++ [NetworkIdle])
  ∧ (2 ≤ length (build_steps o) ≤ 5)%nat.
Proof.
  assert (Hends : ∃ middle, build_steps o = InitialLoad :: middle ++ [NetworkIdle]).
  { unfold build_steps, later_steps. eexists. by rewrite !app_assoc. }
  destruct o as [mx grab play site scroll shot prov].
  unfold build_steps, later_steps, all_steps in *. simpl in *.
  destruct grab, play, site, scroll, shot; simpl;
    (split; [reflexivity|]); (split; [by_decide|]);
    (split; [exact Hends|]); lia.
Qed.

(** A run of [capture()] only adds to the logs: the entries that were there
    stay, in their order, at the beginning; and it changes neither the url
    nor the options of the controller. *)
Theorem capture_appends_to_the_logs env m :
  logs m `prefix_of` logs (fst (capture env m))
  ∧ url (fst (capture env m)) = url m
  ∧ options (fst (capture env m)) = options m.
Proof.
  destruct (capture_evolves env m) as (_ & _ & Hlogs & Hopt & Hurl). done.
Qed.

End pipeline_shape.

(** * Further properties of the exchange class *)

Section copies.
Import ExchangeObject.

Lemma target_not_special key : key ≠ "__proto__" → target key ∉ special_keys.
Proof.
  unfold target, special_keys. intros Hkey.
  repeat case_bool_decide; subst; rewrite !elem_of_cons, elem_of_nil;
    intros [?|[?|[?|[]]]]; congruence.
Qed.

(** The constructor never gives the instance an own property named
    [request], [response] or [__proto__]. *)
Lemma assign_all_special entries : ∀ o o' k,
  assign_all o entries = Some o' → k ∈ special_keys → o' !! k = o !! k.
Proof.
  induction entries as [|[key value] rest IH]; intros o o' k Hrun Hk.
  - simpl in Hrun. by injection Hrun as <-.
  - simpl in Hrun. destruct (has_property o key); [|by apply (IH o)].
    destruct (put o key value) as [o1|] eqn:Hput; [|done].
    rewrite (IH o1 o' k Hrun Hk).
    apply put_spec in Hput as [[_ ->]|[Hkey ->]]; [done|].
    apply lookup_insert_ne. intros Heq. apply (target_not_special key Hkey).
    by rewrite Heq.
Qed.

Lemma last_assigned_lookup targets k (entries : list (string * jsval)) :
  NoDup entries.*1 → k ∈ targets →
  (∀ t, t ∈ targets → t ≠ k → t ∉ entries.*1) →
  last_assigned targets entries = (list_to_map entries : gmap string jsval) !! k.
Proof.
  intros Hnodup Hk Hothers.
  induction entries as [|[key value] rest IH]; [done|].
  rewrite fmap_cons in Hnodup. apply list.NoDup_cons in Hnodup as [Hfresh Hnodup].
  simpl in *. rewrite IH; [|done|].
  - destruct (decide (key = k)) as [->|Hne].
    + rewrite lookup_insert_eq.
      rewrite (not_elem_of_list_to_map_1 _ k Hfresh).
      by rewrite bool_decide_eq_true_2.
    + rewrite lookup_insert_ne by done.
      destruct (list_to_map rest !! k); [done|].
      rewrite bool_decide_eq_false_2; [done|]. intros Hin.
      apply (Hothers key Hin Hne). by apply elem_of_cons; left.
  - intros t Ht Hne Hin. apply (Hothers t Ht Hne). by apply elem_of_cons; right.
Qed.

Lemma sources_others k t :
  k ∉ special_keys → t ∈ sources k → t ≠ k → t ∈ special_keys.
Proof.
  unfold sources, special_keys. intros Hk Ht Hne.
  repeat case_bool_decide; subst; set_solver.
Qed.

Lemma sources_self k : k ∈ sources k.
Proof. unfold sources. repeat case_bool_decide; subst; set_solver. Qed.

(** Every object the constructor returns has the shape of an instance. *)
Lemma new_MischiefExchange_shaped now props o :
  new_MischiefExchange now props = Some o → instance_shaped o.
Proof.
  unfold new_MischiefExchange. intros Hnew.
  assert (Hrq : is_Some (fresh now !! "_request")) by by_decide.
  assert (Hrs : is_Some (fresh now !! "_response")) by by_decide.
  split.
  - intros k Hk.
    assert (Hnot : k ∉ special_keys).
    { revert Hk. unfold declared_fields, special_keys. set_solver. }
    rewrite (assign_all_lookup _ _ _ k Hnew Hrq Hrs Hnot).
    rewrite (proj2 (has_property_fresh now k)) by by left.
    destruct (last_assigned (sources k) props); [by eexists|].
    by apply fresh_own.
  - intros k Hk.
    assert (Hnot : k ∉ special_keys).
    { intros Hsp. rewrite (assign_all_special _ _ _ k Hnew Hsp) in Hk.
      apply fresh_own in Hk. revert Hk Hsp.
      unfold declared_fields, special_keys. set_solver. }
    split; [done|].
    rewrite (assign_all_lookup _ _ _ k Hnew Hrq Hrs Hnot) in Hk.
    destruct (has_property (fresh now) k) eqn:Hin.
    + by apply has_property_fresh in Hin.
    + by destruct Hk.
Qed.

(** Copy construction.  Every object [new MischiefExchange(props)] returns
    has the shape of an instance, and passing the entries of an
    instance-shaped object to the constructor, in any order, gives an
    object with the same own properties: the four declared fields, [date]
    included, so that the copy keeps the date of the original and not the
    time of the copy, and every shadowed inherited name. *)
Theorem copy_construction_keeps_every_own_property now props o :
  new_MischiefExchange now props = Some o →
  instance_shaped o
  ∧ ∀ later entries,
      entries ≡ₚ map_to_list o →
      new_MischiefExchange later entries = Some o.
Proof.
  intros Hnew. pose proof (new_MischiefExchange_shaped _ _ _ Hnew) as Hshape.
  split; [done|]. intros later entries Hperm.
  destruct Hshape as [Hdeclared Hown].
  assert (Hmap : (list_to_map entries : gmap string jsval) = o).
  { rewrite <- (list_to_map_to_list o). apply list_to_map_proper; [|done].
    rewrite Hperm. apply NoDup_fst_map_to_list. }
  assert (Hnodup : NoDup entries.*1).
  { rewrite Hperm. apply NoDup_fst_map_to_list. }
  assert (Hkeys : ∀ t, t ∈ special_keys → t ∉ entries.*1).
  { intros t Ht Hin. apply list_elem_of_fmap in Hin as [[t' v] [-> Hin]].
    simpl in Ht. rewrite Hperm in Hin. apply elem_of_map_to_list in Hin.
    destruct (Hown t') as [Hnot _]; [by eexists|]. done. }
  unfold new_MischiefExchange.
  destruct (assign_all_total entries (fresh later)) as [o' Hrun].
  { intros v Hin. exfalso. apply (Hkeys "__proto__"); [by_decide|].
    apply list_elem_of_fmap. by exists ("__proto__", v). }
  rewrite Hrun. f_equal. apply map_eq. intros k.
  destruct (decide (k ∈ special_keys)) as [Hsp|Hnot].
  - rewrite (assign_all_special _ _ _ k Hrun Hsp).
    transitivity (@None jsval).
    + apply eq_None_not_Some. intros Hk. apply fresh_own in Hk.
      revert Hk Hsp. unfold declared_fields, special_keys. set_solver.
    + symmetry. apply eq_None_not_Some. intros Hk.
      by destruct (Hown k Hk).
  - assert (Hrq : is_Some (fresh later !! "_request")) by by_decide.
    assert (Hrs : is_Some (fresh later !! "_response")) by by_decide.
    rewrite (assign_all_lookup _ _ _ k Hrun Hrq Hrs Hnot).
    rewrite (last_assigned_lookup (sources k) k entries Hnodup (sources_self k)).
    2:{ intros t Ht Hne. apply Hkeys. by apply (sources_others k). }
    rewrite Hmap.
    destruct (has_property (fresh later) k) eqn:Hin.
    + destruct (o !! k) eqn:Hk; [done|].
      apply eq_None_not_Some. intros Hfresh. apply fresh_own in Hfresh.
      destruct (Hdeclared k Hfresh) as [v Hv]. congruence.
    + symmetry. apply eq_None_not_Some. intros Hk.
      destruct (Hown k Hk) as [_ Hor].
      apply (has_property_fresh later) in Hor. congruence.
Qed.

End copies.

(** * Further properties of the exporter *)

Section export_again.

(** With or without raw payloads, the container holds under
    [archive/data.warc] the bytes [toWarc()] resolved with: whatever the ids
    and dates of the exchanges, no raw payload takes that name.  Nor do a
    request payload and a response payload ever share a name, and the name
    of a raw payload tells its direction and its timestamp-and-id key. *)
Theorem record_file_is_never_overwritten lib c includeRaw w :
  mischiefToWacz_container lib (IsMischief c) includeRaw = Exported w →
  (∃ warc, toWarc lib c = Returns warc
           ∧ files w !! "archive/data.warc" = Some warc)
  ∧ (∀ ex ex', raw_path request ex ≠ raw_path response ex')
  ∧ (∀ d d' ex ex', raw_path d ex = raw_path d' ex' →
                    d = d' ∧ raw_key_of ex = raw_key_of ex').
Proof.
  intros (_ & warc & Hwarc & ->)%container_exported.
  split; [|split].
  - exists warc. split; [done|]. apply fill_wacz_warc.
  - intros ex ex' Heq. by apply raw_path_inj in Heq as [? _].
  - intros d d' ex ex'. apply raw_path_inj.
Qed.

(** When no two exchanges of the store share their creation time and id,
    the raw payloads of the container are exactly the buffers of the
    exchanges: under the request and the response path of every exchange
    lies that exchange's own buffer, and nothing lies there when the
    exchange has none. *)
Theorem distinct_keys_export_every_buffer lib c w :
  mischiefToWacz_container lib (IsMischief c) true = Exported w →
  NoDup (raw_key_of <$> exchanges c) →
  ∀ ex d, ex ∈ exchanges c → files w !! raw_path d ex = raw d ex.
Proof.
  intros (_ & warc & _ & ->)%container_exported Hnodup ex d Hin.
  rewrite fill_wacz_raw. by apply stored_unique.
Qed.

(** [capture()] and the exporter.  The controller a run of [capture()]
    leaves when it returns is in state [COMPLETE], also when the byte
    budget was reached during the run, and passes the state check of
    [mischiefToWacz]; the controller a run leaves when its setup failed is
    in state [SETUP] and is refused by that check. *)
Theorem only_a_returned_capture_is_exportable lib env m includeRaw :
  match capture env m with
  | (m', Returns _) =>
      state m' = COMPLETE
      ∧ mischiefToWacz lib (IsMischief m') includeRaw ≠ InvalidCapture
  | (m', Throws _) =>
      state m' = SETUP
      ∧ mischiefToWacz lib (IsMischief m') includeRaw = InvalidCapture
  end.
Proof.
  destruct (setup_failure env) as [err|] eqn:Hfail.
  - unfold capture, setup. rewrite Hfail.
    assert (Hst : ∀ cs, state (ingest_all cs (with_state SETUP m)) = SETUP).
    { intros cs.
      destruct (ingest_all_quiet cs (with_state SETUP m)) as (-> & _); done. }
    destruct (launched_before_failure env); simpl; rewrite Hst;
      (split; [done|]); unfold mischiefToWacz; simpl;
      rewrite ?Hst; by rewrite bool_decide_eq_false_2 by by_decide.
  - destruct (capture_after_setup env m Hfail) as (m5 & _ & _ & _ & ->).
    split; [done|]. unfold mischiefToWacz. simpl.
    destruct (toWarc lib _); [|done]. by destruct (finalize lib _).
Qed.

End export_again.

(** * The further properties on the examples *)

Section examples_again.

Lemma empty_store_is_answered m :
  exchanges m = [] → answered_before_reuse (exchanges m).
Proof. intros -> i j ei ej sid _ Hi. inversion Hi. Qed.

(** A response chunk of [sess-1] delivered to [two_pairs] adds no
    exchange. *)
Lemma delivery_touches_one_session_witness :
  length (exchanges (ingest status_chunk two_pairs))
  = length (exchanges two_pairs).
Proof.
  destruct (delivery_touches_one_session status_chunk two_pairs)
    as (_ & _ & Hsame).
  apply Hsame; [reflexivity|].
  exists root_exchange. split; [|reflexivity].
  apply (list_elem_of_lookup_2 _ 0%nat). reflexivity.
Defined.

(** The four deliveries of [two_pairs]: the request bytes of [sess-1] are
    the two requests, in order. *)
Lemma deliveries_are_demultiplexed_witness :
  answered_before_reuse (exchanges roomy_capture)
  ∧ answered_before_reuse (exchanges two_pairs)
  ∧ session_bytes "sess-1" request (exchanges two_pairs)
    = get_root ++ get_style.
Proof.
  assert (Hempty : answered_before_reuse (exchanges roomy_capture))
    by (by apply empty_store_is_answered).
  destruct (deliveries_are_demultiplexed
              [mkChunk request get_root "sess-1" 1667469600123;
               mkChunk response status_line "sess-1" 1667469600200;
               mkChunk request get_style "sess-1" 1667469600300;
               mkChunk response status_line "sess-1" 1667469600400]
              roomy_capture Hempty) as [Hinv Hbytes].
  split; [exact Hempty|]. split; [exact Hinv|].
  exact (Hbytes "sess-1" request).
Defined.

Lemma capture_keeps_sessions_answered_witness :
  answered_before_reuse (exchanges example_capture)
  ∧ answered_before_reuse (exchanges (fst (capture breach_env example_capture))).
Proof.
  assert (Hempty : answered_before_reuse (exchanges example_capture))
    by (by apply empty_store_is_answered).
  split; [exact Hempty|].
  exact (capture_keeps_sessions_answered breach_env example_capture Hempty).
Defined.

Lemma response_before_request_is_not_paired_witness :
  exchanges (ingest (mkChunk request get_root "sess-1" 1667469600200)
               (ingest status_chunk roomy_capture))
  = [mkExchange 1667469600123 (Some "sess-1") None None None (Some status_line);
     mkExchange 1667469600200 (Some "sess-1") None None (Some get_root) None].
Proof.
  apply (response_before_request_is_not_paired roomy_capture "sess-1"
           status_line get_root 1667469600123 1667469600200).
  intros ex Hin. inversion Hin.
Defined.

(** [example_capture] has a budget of four bytes and is in state [INIT]:
    fifteen bytes are stored and counted, and the state stays [INIT]. *)
Lemma budget_is_enforced_only_while_capturing_witness :
  state example_capture ≠ CAPTURE
  ∧ state (ingest_all [status_chunk] example_capture) = INIT
  ∧ totalSize (ingest_all [status_chunk] example_capture) = 15.
Proof.
  assert (Hst : state example_capture ≠ CAPTURE) by discriminate.
  destruct (budget_is_enforced_only_while_capturing [status_chunk]
              example_capture Hst) as (Hstate & _ & _ & Hsize & _).
  split; [exact Hst|]. split; [exact Hstate|exact Hsize].
Defined.

Lemma failed_setup_is_not_torn_down_witness :
  snd (capture failing_env example_capture)
  = Throws "browserType.launch: Executable not found"
  ∧ state (fst (capture failing_env example_capture)) = SETUP
  ∧ logs (fst (capture failing_env example_capture)) = []
  ∧ browser (fst (capture failing_env example_capture)) = Launched 0
  ∧ totalSize (fst (capture failing_env example_capture)) = 15.
Proof.
  exact (failed_setup_is_not_torn_down failing_env example_capture
           "browserType.launch: Executable not found" eq_refl).
Defined.

Lemma steps_begin_in_pipeline_order_witness :
  ∃ k, (k ≤ length (later_steps (options example_capture)))%nat
       ∧ announced (logs (fst (capture breach_env example_capture)))
         = announced (logs example_capture) ++ seq 1 (S k)
       ∧ (state (at_loop_exit breach_env example_capture) = CAPTURE →
          S k = length (build_steps (options example_capture))).
Proof.
  exact (steps_begin_in_pipeline_order breach_env example_capture eq_refl).
Defined.

Lemma notices_are_logged_once_witness :
  occurrences LogClosing (logs (fst (capture breach_env example_capture))) = 1%nat
  ∧ (0 ≤ occurrences LogMaxSize (logs (fst (capture breach_env example_capture)))
     ≤ 1)%nat.
Proof.
  exact (notices_are_logged_once breach_env example_capture eq_refl).
Defined.

Lemma copy_construction_keeps_every_own_property_witness :
  ExchangeObject.new_MischiefExchange 7 shadowing_props = Some shadowing_exchange
  ∧ instance_shaped shadowing_exchange
  ∧ ExchangeObject.new_MischiefExchange 9 (map_to_list shadowing_exchange)
    = Some shadowing_exchange.
Proof.
  assert (Hnew : ExchangeObject.new_MischiefExchange 7 shadowing_props
                 = Some shadowing_exchange)
    by reflexivity.
  destruct (copy_construction_keeps_every_own_property _ _ _ Hnew)
    as [Hshape Hcopy].
  split; [exact Hnew|]. split; [exact Hshape|].
  apply Hcopy. reflexivity.
Defined.

Lemma record_file_is_never_overwritten_witness :
  ∃ warc, toWarc reference_lib complete_capture = Returns warc
          ∧ files (fill_wacz reference_lib complete_capture true
                     (reference_warc (records_of (exchanges complete_capture))))
            !! "archive/data.warc" = Some warc.
Proof.
  assert (Hexp : mischiefToWacz_container reference_lib
                   (IsMischief complete_capture) true
                 = Exported (fill_wacz reference_lib complete_capture true
                     (reference_warc (records_of (exchanges complete_capture)))))
    by reflexivity.
  exact (proj1 (record_file_is_never_overwritten _ _ _ _ Hexp)).
Defined.

Lemma distinct_keys_export_every_buffer_witness :
  NoDup (raw_key_of <$> exchanges complete_capture)
  ∧ files (fill_wacz reference_lib complete_capture true
             (reference_warc (records_of (exchanges complete_capture))))
    !! raw_path response root_exchange = Some status_line.
Proof.
  assert (Hexp : mischiefToWacz_container reference_lib
                   (IsMischief complete_capture) true
                 = Exported (fill_wacz reference_lib complete_capture true
                     (reference_warc (records_of (exchanges complete_capture)))))
    by reflexivity.
  assert (Hnodup : NoDup (raw_key_of <$> exchanges complete_capture))
    by by_decide.
  split; [exact Hnodup|].
  apply (distinct_keys_export_every_buffer _ _ _ Hexp Hnodup root_exchange response).
  apply (list_elem_of_lookup_2 _ 0%nat). reflexivity.
Defined.

End examples_again.
